(** * Merge-compaction task of the TAE storage engine (jobs/mergeobjects.go)

    Shallow embedding of [NewMergeObjectsTask], [PrepareData],
    [PrepareCommitEntry], [PrepareNewWriterFunc], [Execute],
    [HandleMergeEntryInTxn] and [GetCreatedObjects], and of the index-build
    operator of colexec/indexbuild/build.go.  The catalog and the transaction are external
    collaborators: every call the code makes on them is recorded in a trace
    of [Call]s, and an environment [resp] decides, from the calls issued so
    far, whether the next fallible call fails.  The block reader used by
    [PrepareData] and the sort-merge-write engine used by [Execute] are
    likewise oracles. *)

From Stdlib Require Import String ZArith Lia.
From stdpp Require Import base list.

(** ** Data model *)

Definition ObjectId := nat.
Definition Err := nat.

(** [objectio.ObjectStats]; [ObjectName().ObjectId()] is [os_id]. *)
Record ObjectStats := mkStats { os_id : ObjectId; os_rows : nat }.

(** [catalog.ObjectEntry], the fields the task reads. *)
Record ObjectEntry := mkEntry {
  oe_ID : ObjectId;
  oe_BlockCnt : nat;
  oe_DbID : nat;
  oe_TableID : nat;
  oe_Stats : ObjectStats
}.

(** [mergesort.MergeCommitEntry]. *)
Record MergeCommitEntry := mkCommit {
  DbID : nat;
  TableID : nat;
  Tablename : string;
  StartTs : nat;
  MergedObjs : list ObjectStats;
  CreatedObjectStats : list ObjectStats;
  Booking : list (nat * nat)
}.

(** Calls on the transaction and catalog. A relation handle is named by
    its (database id, table id). [CSetSorted] is the in-memory mutation of
    the created entry, which cannot fail. *)
Inductive Call :=
| CGetDatabaseByID (did : nat)
| CGetRelationByID (did tid : nat)
| CGetObject (did tid : nat) (id : ObjectId)
| CSoftDeleteObject (did tid : nat) (id : ObjectId)
| CCreateNonAppendableObject (did tid : nat) (id : ObjectId)
| CUpdateStats (did tid : nat) (id : ObjectId) (s : ObjectStats)
| CSetSorted (id : ObjectId)
| CNewMergeObjectsEntry (did tid : nat) (merged created : list ObjectId)
    (booking : list (nat * nat))
| CLogTxnEntry (did tid : nat).

Definition fallible (c : Call) : bool :=
  match c with CSetSorted _ => false | _ => true end.

(** Outcome of a Go function: a return value, an error return, or a panic. *)
Inductive res (A : Type) :=
| Ok (a : A)
| Fail (e : Err)
| Panic (msg : string).
Arguments Ok {A} a.
Arguments Fail {A} e.
Arguments Panic {A} msg.

(** The error-and-trace monad of the catalog code. *)
Definition M (A : Type) := list Call -> list Call * res A.

Definition retM {A} (a : A) : M A := fun tr => (tr, Ok a).

Definition bindM {A B} (m : M A) (k : A -> M B) : M B := fun tr =>
  match m tr with
  | (tr', Ok a) => k a tr'
  | (tr', Fail e) => (tr', Fail e)
  | (tr', Panic s) => (tr', Panic s)
  end.

Notation "x <-- m ;; k" := (bindM m (fun x => k))
  (at level 100, m at next level, right associativity).
Notation "m ;;; k" := (bindM m (fun _ => k))
  (at level 100, right associativity).

(** ** Schema *)

(** [catalog.ColDef], the fields the task reads. *)
Record ColDef := mkColDef {
  Name : string;
  Idx : nat;
  SeqNum : nat;
  IsPhyAddrB : bool
}.

Record SortKeyDef := mkSortKey { sk_Idx : nat; sk_IsPrimary : bool }.

Record Schema := mkSchema {
  s_Name : string;
  s_Version : nat;
  s_ColDefs : list ColDef;
  s_BlockMaxRows : nat;
  s_SortKey : option SortKeyDef
}.

(** Modelled from the spec: [catalog.Schema.HasSortKey] (not in the
    sources). The table has a sort key, which sits at one column position. *)
Definition HasSortKey (s : Schema) : bool :=
  match s_SortKey s with Some _ => true | None => false end.

(** Modelled from the spec: [catalog.Schema.HasPK] (not in the sources).
    The table's sort key is its primary key. *)
Definition HasPK (s : Schema) : bool :=
  match s_SortKey s with Some k => sk_IsPrimary k | None => false end.

(** Modelled from the spec: [catalog.Schema.GetSingleSortKeyIdx] (not in
    the sources). The position of the sort-key column. *)
Definition GetSingleSortKeyIdx (s : Schema) : Z :=
  match s_SortKey s with Some k => Z.of_nat (sk_Idx k) | None => (-1)%Z end.

Definition IsPhyAddr (d : ColDef) : bool := IsPhyAddrB d.

Section Catalog.

(** Answer of the transaction/catalog to a fallible call, given the calls
    issued before it: [None] for success, [Some e] for an error. *)
Variable resp : list Call -> Call -> option Err.

Definition outcome (tr : list Call) (c : Call) : option Err :=
  if fallible c then resp tr c else None.

Definition call (c : Call) : M unit := fun tr =>
  match outcome tr c with
  | None => (tr ++ [c], Ok tt)
  | Some e => (tr ++ [c], Fail e)
  end.

(** *** HandleMergeEntryInTxn *)

(** drop merged blocks and objects *)
Fixpoint drop_loop (did tid : nat) (drops : list ObjectStats)
    (mergedObjs : list ObjectId) : M (list ObjectId) :=
  match drops with
  | [] => retM mergedObjs
  | drop :: rest =>
      let objID := os_id drop in
      call (CGetObject did tid objID) ;;;
      let mergedObjs' := mergedObjs ++ [objID] in
      call (CSoftDeleteObject did tid objID) ;;;
      drop_loop did tid rest mergedObjs'
  end.

(** construct new object *)
Fixpoint create_loop (did tid : nat) (created : list ObjectStats)
    (createdObjs : list ObjectId) : M (list ObjectId) :=
  match created with
  | [] => retM createdObjs
  | stats :: rest =>
      let objID := os_id stats in
      call (CCreateNonAppendableObject did tid objID) ;;;
      let createdObjs' := createdObjs ++ [objID] in
      call (CUpdateStats did tid objID stats) ;;;
      call (CSetSorted objID) ;;;
      create_loop did tid rest createdObjs'
  end.

Definition HandleMergeEntryInTxn (entry : MergeCommitEntry) : M (list ObjectId) :=
  let did := DbID entry in
  let tid := TableID entry in
  call (CGetDatabaseByID did) ;;;
  call (CGetRelationByID did tid) ;;;
  mergedObjs <-- drop_loop did tid (MergedObjs entry) [] ;;
  createdObjs <-- create_loop did tid (CreatedObjectStats entry) [] ;;
  call (CNewMergeObjectsEntry did tid mergedObjs createdObjs (Booking entry)) ;;;
  call (CLogTxnEntry did tid) ;;;
  retM createdObjs.


Definition attempt (c : Call) : M (option Err) := fun tr =>
  (tr ++ [c], Ok (outcome tr c)).

(** *** The task *)

(** [mergeObjectsTask]; an object handle is named by its object id, the
    relation handle by (database id, table id). *)
Record MergeTask := mkTask {
  t_mergedObjs : list ObjectEntry;
  t_mergedObjsHandle : list ObjectId;
  t_mergedBlkCnt : list nat;
  t_totalMergedBlkCnt : nat;
  t_createdBObjs : list ObjectId;
  t_commitEntry : option MergeCommitEntry;
  t_rel : option (nat * nat);
  t_did : nat;
  t_tid : nat
}.

(** [for i, obj := range mergedObjs { mergedBlkCnt[i] = total; total += obj.BlockCnt() }] *)
Fixpoint offsets_loop (objs : list ObjectEntry) (total : nat) : list nat * nat :=
  match objs with
  | [] => ([], total)
  | obj :: rest =>
      let '(cnts, total') := offsets_loop rest (total + oe_BlockCnt obj) in
      (total :: cnts, total')
  end.

(** [for _, meta := range mergedObjs { obj, err := task.rel.GetObject(&meta.ID) ... }] *)
Fixpoint handles_loop (did tid : nat) (metas : list ObjectEntry)
    (handles : list ObjectId) : M (list ObjectId + Err) :=
  match metas with
  | [] => retM (inl handles)
  | meta :: rest =>
      err <-- attempt (CGetObject did tid (oe_ID meta)) ;;
      match err with
      | Some e => retM (inr e)
      | None => handles_loop did tid rest (handles ++ [oe_ID meta])
      end
  end.

(** [NewMergeObjectsTask]: the named results [(task, err)] are returned as
    they stand at each [return]. *)
Definition NewMergeObjectsTask (mergedObjs : list ObjectEntry)
    : M (option MergeTask * option Err) :=
  match mergedObjs with
  | [] => fun tr => (tr, Panic "empty mergedObjs"%string)
  | first :: _ =>
      let '(blkcnt, total) := offsets_loop mergedObjs 0 in
      let did := oe_DbID first in
      let task1 := mkTask mergedObjs [] blkcnt total [] None None did 0 in
      err1 <-- attempt (CGetDatabaseByID did) ;;
      match err1 with
      | Some e => retM (Some task1, Some e)
      | None =>
          let tid := oe_TableID first in
          err2 <-- attempt (CGetRelationByID did tid) ;;
          match err2 with
          | Some e => retM (Some (mkTask mergedObjs [] blkcnt total [] None None did tid), Some e)
          | None =>
              hs <-- handles_loop did tid mergedObjs [] ;;
              match hs with
              | inr e => retM (None, Some e)
              | inl handles =>
                  retM (Some (mkTask mergedObjs handles blkcnt total [] None
                                (Some (did, tid)) did tid), None)
              end
          end
      end
  end.

End Catalog.

(** [PrepareCommitEntry]: returns the task with [commitEntry] set, and the entry. *)
Definition PrepareCommitEntry (task : MergeTask) (schema : Schema) (startTs : nat)
    : MergeTask * MergeCommitEntry :=
  let commitEntry :=
    mkCommit (t_did task) (t_tid task) (s_Name schema) startTs
      (map oe_Stats (t_mergedObjs task)) [] [] in
  (mkTask (t_mergedObjs task) (t_mergedObjsHandle task) (t_mergedBlkCnt task)
     (t_totalMergedBlkCnt task) (t_createdBObjs task) (Some commitEntry)
     (t_rel task) (t_did task) (t_tid task), commitEntry).

(** The arguments of [mergesort.GetMustNewWriter] that the writer factory
    is built with. *)
Record WriterConf := mkWriterConf {
  w_Version : nat;
  w_SeqNums : list nat;
  w_SortKeyPos : Z;
  w_SortKeyIsPK : bool
}.

Fixpoint seqnums_loop (defs : list ColDef) : list nat :=
  match defs with
  | [] => []
  | def :: rest => if IsPhyAddr def then seqnums_loop rest else SeqNum def :: seqnums_loop rest
  end.

Definition PrepareNewWriterFunc (schema : Schema) : WriterConf :=
  let seqnums := seqnums_loop (s_ColDefs schema) in
  let '(sortkeyPos, sortkeyIsPK) :=
    if HasPK schema then (GetSingleSortKeyIdx schema, true)
    else if HasSortKey schema then (GetSingleSortKeyIdx schema, false)
    else ((-1)%Z, false) in
  mkWriterConf (s_Version schema) seqnums sortkeyPos sortkeyIsPK.

(** The sort-key position [Execute] hands to [DoMergeAndWrite]. *)
Definition Execute_sortkeyPos (schema : Schema) : Z :=
  if HasSortKey schema then GetSingleSortKeyIdx schema else (-1)%Z.

Definition set_created (task : MergeTask) (c : list ObjectId) : MergeTask :=
  mkTask (t_mergedObjs task) (t_mergedObjsHandle task) (t_mergedBlkCnt task)
    (t_totalMergedBlkCnt task) c (t_commitEntry task) (t_rel task)
    (t_did task) (t_tid task).

(** What [Execute] leaves behind: its returned error, the deferred error
    log (phase and error), and the task. *)
Record ExecOut := mkExecOut {
  ex_err : option Err;
  ex_log : option (string * Err);
  ex_task : MergeTask
}.

Definition phase1 : string := "1-DoMergeAndWrite".
Definition phase2 : string := "2-HandleMergeEntryInTxn".

Section Execute.

Variable resp : list Call -> Call -> option Err.

(** The sort-merge-write engine, external: given the sort-key position, the
    block row cap and the task (a pointer, through which the engine sets
    the commit entry with [PrepareCommitEntry] and may change the task
    before it fails), it returns the task as it leaves it and its outcome:
    success, an error, or a panic. *)
Variable DoMergeAndWrite : Z -> nat -> MergeTask -> MergeTask * res unit.

Definition Execute (task : MergeTask) (schema : Schema) : M ExecOut := fun tr =>
  let sortkeyPos := Execute_sortkeyPos schema in
  match DoMergeAndWrite sortkeyPos (s_BlockMaxRows schema) task with
  | (_, Panic m) => (tr, Panic m)
  | (task', Fail e) => (tr, Ok (mkExecOut (Some e) (Some (phase1, e)) task'))
  | (task', Ok _) =>
      match t_commitEntry task' with
      | None => (tr, Panic "nil pointer dereference"%string)
      | Some entry =>
          match HandleMergeEntryInTxn resp entry tr with
          | (tr', Ok created) => (tr', Ok (mkExecOut None None (set_created task' created)))
          | (tr', Fail e) =>
              (tr', Ok (mkExecOut (Some e) (Some (phase2, e)) (set_created task' [])))
          | (tr', Panic m) => (tr', Panic m)
          end
      end
  end.

End Execute.

(** [GetCreatedObjects]. *)
Definition GetCreatedObjects (task : MergeTask) : list ObjectId := t_createdBObjs task.

(** ** PrepareData *)

(** A column of a block view: its data (abstract) and its length. *)
Record Column := mkColumn { col_data : nat; col_len : nat }.

(** [containers.BlockView]: the requested columns and the delete mask. *)
Record BlockView := mkView { Columns : list Column; DeleteMask : list nat }.

(** [batch.Batch]: attribute names, vectors and row count. *)
Record Batch := mkBatch { Attrs : list string; Vecs : list nat; RowCount : nat }.

(** Lifecycle events of block views; a view is named by the rank of its
    acquisition. *)
Inductive ViewEvent := Acquire (n : nat) | Close (n : nat).

Definition uint16 (j : nat) : nat := N.to_nat (N.of_nat j mod 65536).

(** Go's [l[k] = x]: a panic out of range. *)
Definition go_store {A} (l : list A) (k : nat) (x : A) : option (list A) :=
  if k <? length l then Some (<[k:=x]> l) else None.

(** State of the read loops: the [views] slice (each view with its
    acquisition rank), the next rank, and the events so far. *)
Record RS := mkRS {
  rs_views : list (option (nat * BlockView));
  rs_next : nat;
  rs_ev : list ViewEvent
}.

Inductive LoopRes :=
| LDone (st : RS)
| LErr (st : RS) (e : Err)
| LPanic (st : RS) (msg : string).

(** [idxs] and [attrs]: every column that is not the physical address. *)
Fixpoint collect_cols (defs : list ColDef) : list nat * list string :=
  match defs with
  | [] => ([], [])
  | def :: rest =>
      let '(idxs, attrs) := collect_cols rest in
      if IsPhyAddr def then (idxs, attrs) else (Idx def :: idxs, Name def :: attrs)
  end.

(** The second loop of [PrepareData]: one batch and one mask per view. *)
Fixpoint build_batches (attrs : list string) (views : list (option (nat * BlockView)))
    : string + (list Batch * list (list nat)) :=
  match views with
  | [] => inr ([], [])
  | None :: _ => inl "nil pointer dereference"%string
  | Some (_, view) :: rest =>
      if negb (length attrs =? length (Columns view)) then inl "mismatch"%string
      else match Columns view with
           | [] => inl "index out of range"%string
           | col0 :: _ =>
               let b := mkBatch attrs (map col_data (Columns view)) (col_len col0) in
               match build_batches attrs rest with
               | inl m => inl m
               | inr (bs, dels) => inr (b :: bs, DeleteMask view :: dels)
               end
           end
  end.

(** [releaseF]: close every non-nil view of the slice, in slice order. *)
Definition releaseF (views : list (option (nat * BlockView))) : list ViewEvent :=
  flat_map (fun o => match o with Some (n, _) => [Close n] | None => [] end) views.

Inductive PDRes :=
| PDOk (batches : list Batch) (dels : list (list nat)) (release : list ViewEvent)
| PDErr (e : Err)
| PDPanic (msg : string).

Section PrepareData.

(** [obj.GetColumnDataByIds(ctx, blk, idxs, alloc)]: a view or an error. *)
Variable read : ObjectId -> nat -> list nat -> BlockView + Err.

(** [for j := 0; j < maxBlockOffset-minBlockOffset; j++ { views[minBlockOffset+j], err = ... }] *)
Fixpoint read_inner (obj : ObjectId) (idxs : list nat) (minOff j rem : nat) (st : RS)
    : LoopRes :=
  match rem with
  | 0 => LDone st
  | S rem' =>
      match read obj (uint16 j) idxs with
      | inl view =>
          match go_store (rs_views st) (minOff + j) (Some (rs_next st, view)) with
          | None => LPanic st "index out of range"%string
          | Some vs =>
              read_inner obj idxs minOff (S j) rem'
                (mkRS vs (S (rs_next st)) (rs_ev st ++ [Acquire (rs_next st)]))
          end
      | inr e =>
          match go_store (rs_views st) (minOff + j) None with
          | None => LPanic st "index out of range"%string
          | Some vs => LErr (mkRS vs (rs_next st) (rs_ev st)) e
          end
      end
  end.

(** [for i, obj := range task.mergedObjsHandle { ... }] *)
Fixpoint read_outer (nobjs total : nat) (blkcnt : list nat) (idxs : list nat)
    (hs : list ObjectId) (i : nat) (st : RS) : LoopRes :=
  match hs with
  | [] => LDone st
  | obj :: hs' =>
      let maxOff :=
        if (Z.of_nat i =? Z.of_nat nobjs - 1)%Z then Some total else blkcnt !! S i in
      match maxOff with
      | None => LPanic st "index out of range"%string
      | Some maxBlockOffset =>
          match blkcnt !! i with
          | None => LPanic st "index out of range"%string
          | Some minBlockOffset =>
              match read_inner obj idxs minBlockOffset 0 (maxBlockOffset - minBlockOffset) st with
              | LDone st' => read_outer nobjs total blkcnt idxs hs' (S i) st'
              | r => r
              end
          end
      end
  end.

(** [PrepareData]: the view events it performs, and its result. On an
    error the deferred [releaseF] runs; on success [releaseF] is handed to
    the caller, represented by the events it performs when invoked. *)
Definition PrepareData (task : MergeTask) (schema : Schema) : list ViewEvent * PDRes :=
  let total := t_totalMergedBlkCnt task in
  let '(idxs, attrs) := collect_cols (s_ColDefs schema) in
  let st0 := mkRS (replicate total None) 0 [] in
  match read_outer (length (t_mergedObjs task)) total (t_mergedBlkCnt task) idxs
          (t_mergedObjsHandle task) 0 st0 with
  | LErr st e => (rs_ev st ++ releaseF (rs_views st), PDErr e)
  | LPanic st m => (rs_ev st, PDPanic m)
  | LDone st =>
      match build_batches attrs (rs_views st) with
      | inl m => (rs_ev st, PDPanic m)
      | inr (bs, dels) => (rs_ev st, PDOk bs dels (releaseF (rs_views st)))
      end
  end.

End PrepareData.

(** ** Vocabulary of the claims *)

(** Offset of object [i]'s first block in the flattened numbering. *)
Definition prefixSum (objs : list ObjectEntry) (i : nat) : nat :=
  sum_list (map oe_BlockCnt (take i objs)).

Definition nonphys_cols (s : Schema) : list ColDef :=
  List.filter (fun d => negb (IsPhyAddr d)) (s_ColDefs s).

Definition acquired (ev : list ViewEvent) : list nat :=
  omap (fun x => match x with Acquire n => Some n | Close _ => None end) ev.

Definition closed (ev : list ViewEvent) : list nat :=
  omap (fun x => match x with Close n => Some n | Acquire _ => None end) ev.

(** A task as [NewMergeObjectsTask] builds it. *)
Definition wf_task (task : MergeTask) : Prop :=
  offsets_loop (t_mergedObjs task) 0 = (t_mergedBlkCnt task, t_totalMergedBlkCnt task) /\
  length (t_mergedObjsHandle task) = length (t_mergedObjs task).

(** The [views] slice after [vl] were read into its first slots, each
    with its acquisition rank. *)
Definition filled_from (m : nat) (vl : list BlockView) : list (option (nat * BlockView)) :=
  imap (fun n v => Some (m + n, v)) vl.

(** Invariant of the read loops: the first [length vl] slots hold [vl],
    the others are nil, and exactly those views were acquired, in order. *)
Definition Inv (total : nat) (vl : list BlockView) (st : RS) : Prop :=
  rs_views st = filled_from 0 vl ++ replicate (total - length vl) None /\
  rs_next st = length vl /\
  rs_ev st = map Acquire (seq 0 (length vl)) /\
  length vl <= total.

(** The block reads [PrepareData] issues for one object, in order: block
    [j] through the object's handle, at [uint16(j)]. *)
Definition block_read_list (h : ObjectId) (o : ObjectEntry) : list (ObjectId * nat) :=
  map (fun j => (h, uint16 j)) (seq 0 (oe_BlockCnt o)).

(** All the block reads of [PrepareData], in order, when none fails. *)
Definition block_reads (task : MergeTask) : list (ObjectId * nat) :=
  concat (zip_with block_read_list (t_mergedObjsHandle task) (t_mergedObjs task)).

(** The reads [sched] all succeed, giving the views [vs]. *)
Definition reads_ok (read : ObjectId -> nat -> list nat -> BlockView + Err)
    (idxs : list nat) (sched : list (ObjectId * nat)) (vs : list BlockView) : Prop :=
  Forall2 (fun hb v => read hb.1 hb.2 idxs = inl v) sched vs.

(** The calls [HandleMergeEntryInTxn] issues, in order, when none fails. *)
Definition drop_calls (did tid : nat) (drops : list ObjectStats) : list Call :=
  flat_map (fun s => [CGetObject did tid (os_id s); CSoftDeleteObject did tid (os_id s)]) drops.

Definition create_calls (did tid : nat) (created : list ObjectStats) : list Call :=
  flat_map (fun s => [CCreateNonAppendableObject did tid (os_id s);
                      CUpdateStats did tid (os_id s) s; CSetSorted (os_id s)]) created.

Definition merge_plan (entry : MergeCommitEntry) : list Call :=
  let did := DbID entry in
  let tid := TableID entry in
  [CGetDatabaseByID did; CGetRelationByID did tid] ++
  drop_calls did tid (MergedObjs entry) ++
  create_calls did tid (CreatedObjectStats entry) ++
  [CNewMergeObjectsEntry did tid (map os_id (MergedObjs entry))
     (map os_id (CreatedObjectStats entry)) (Booking entry);
   CLogTxnEntry did tid].

Definition is_log_call (c : Call) : bool :=
  match c with CNewMergeObjectsEntry _ _ _ _ _ | CLogTxnEntry _ _ => true | _ => false end.

Definition is_create_call (c : Call) : bool :=
  match c with CCreateNonAppendableObject _ _ _ => true | _ => false end.

(** Issue a list of calls, stopping at the first failing one. *)
Fixpoint run_plan (resp : list Call -> Call -> option Err) (cs : list Call) : M unit :=
  match cs with
  | [] => retM tt
  | c :: cs' => call resp c ;;; run_plan resp cs'
  end.

(** ** The index-build operator (colexec/indexbuild/build.go)

    The operator receives the build-side batches, accumulates them into
    one batch, and sends one runtime filter to the probe side. Batches are
    named by an id; vectors are abstract (a [nat]); the receivers, the batch
    append, the vector sort and serialisation, and the analyzer are external
    and appear as oracles or not at all (the analyzer and the log lines
    have no effect on the operator). *)

Module IndexBuild.

(** [pipeline.RuntimeFilter]: its type, cardinality and payload. *)
Inductive RuntimeFilterTyp := RuntimeFilter_PASS | RuntimeFilter_DROP | RuntimeFilter_IN.

Record RuntimeFilter := mkRuntimeFilter {
  Typ : RuntimeFilterTyp;
  Card : Z;
  Data : list nat
}.

(** [pipeline.RuntimeFilterSpec]: the filter expression ([None] for nil)
    and the [int32] cardinality limit of an IN filter. *)
Record RuntimeFilterSpec := mkRuntimeFilterSpec {
  Expr : option nat;
  UpperLimit : Z
}.

(** [Argument]: the runtime-filter senders, by their specs. *)
Record Argument := mkArgument { RuntimeFilterSenders : list RuntimeFilterSpec }.

(** [*batch.Batch], the parts the operator reads. *)
Record IBatch := mkIBatch {
  ib_id : nat;
  ib_RowCount : nat;
  ib_IsEmpty : bool;
  ib_Vecs : list nat
}.

Inductive CtrState := ReceiveBatch | HandleRuntimeFilter | End.

(** [container]: the state, the accumulated batch and the receive mode. *)
Record container := mkContainer {
  state : CtrState;
  batch : option IBatch;
  isMerge : bool
}.

(** What one receive returns: a batch, a nil batch, or an error. *)
Inductive Received := RecvBatch (b : IBatch) | RecvNil | RecvErr (e : Err).

(** Observable effects of the operator: receiver set-up, receives (from
    all registers or from register 0), appends to the accumulated batch,
    batches handed back to the pool, and filters sent. *)
Inductive IEvent :=
| EInitReceiver (merge : bool)
| EReceive (merge : bool)
| EAppend (id : nat)
| EPutBatch (id : nat)
| ESend (f : RuntimeFilter).

(** Go's [int32(x)] conversion. *)
Definition int32_of (z : Z) : Z := (Z.modulo (z + 2 ^ 31) (2 ^ 32) - 2 ^ 31)%Z.

(** [ap.RuntimeFilterSenders[0].Spec]; [None] is the out-of-range panic. *)
Definition sender0 (ap : Argument) : option RuntimeFilterSpec :=
  head (RuntimeFilterSenders ap).

(** [Prepare]: the panic without sender, else the receiver set-up and the
    [isMerge] flag of the fresh container (its other fields are the zero
    values). *)
Definition Prepare (ap : Argument) (nMergeReceivers : nat) : list IEvent * res bool :=
  match RuntimeFilterSenders ap with
  | [] => ([], Panic "there must be runtime filter in index build!"%string)
  | _ :: _ =>
      if 1 <? nMergeReceivers then ([EInitReceiver true], Ok true)
      else ([EInitReceiver false], Ok false)
  end.

(** The result of [collectBuildBatches]: its effects, the accumulated
    batch [ctr.batch], the input left unread, and the returned error. *)
Record CollectOut := mkCollectOut {
  co_ev : list IEvent;
  co_batch : option IBatch;
  co_rest : list Received;
  co_res : res unit
}.

Definition co_prepend (ev : list IEvent) (co : CollectOut) : CollectOut :=
  mkCollectOut (ev ++ co_ev co) (co_batch co) (co_rest co) (co_res co).

(** The outcome of [Call]: its effects, the [vm.CallResult] returned (the
    cancel result, the fresh result of [vm.NewCallResult] unchanged, or that
    result with a nil batch and status [ExecStop]), the error, the container
    and the input left unread. *)
Inductive CallRet := CancelResult | NewResult | StopResult.

Record CallOut := mkCallOut {
  cl_ev : list IEvent;
  cl_ret : CallRet;
  cl_res : res unit;
  cl_ctr : container;
  cl_rest : list Received
}.

Section Operator.

(** [ctr.batch.AppendWithCopy(ctx, mp, b)]: the new accumulated batch and
    the error. *)
Variable AppendWithCopy : option IBatch -> IBatch -> option IBatch * option Err.
(** [vec.InplaceSort()]: the vector after sorting. *)
Variable InplaceSort : nat -> nat.
(** [vec.Length()]. *)
Variable Length : nat -> nat.
(** [vec.MarshalBinary()]. *)
Variable MarshalBinary : nat -> list nat + Err.

(** [collectBuildBatches]. The input lists what the receiver returns,
    in order; once it is exhausted the receiver returns a nil batch. *)
Fixpoint collectBuildBatches (ap : Argument) (merge : bool) (input : list Received)
    (bat : option IBatch) : CollectOut :=
  match input with
  | [] => mkCollectOut [EReceive merge] bat [] (Ok tt)
  | RecvErr e :: rest => mkCollectOut [EReceive merge] bat rest (Fail e)
  | RecvNil :: rest => mkCollectOut [EReceive merge] bat rest (Ok tt)
  | RecvBatch cur :: rest =>
      if ib_IsEmpty cur then
        co_prepend [EReceive merge; EPutBatch (ib_id cur)]
          (collectBuildBatches ap merge rest bat)
      else
        let '(bat', err) := AppendWithCopy bat cur in
        match err with
        | Some e => mkCollectOut [EReceive merge; EAppend (ib_id cur)] bat' rest (Fail e)
        | None =>
            let ev := [EReceive merge; EAppend (ib_id cur); EPutBatch (ib_id cur)] in
            match bat' with
            | None => mkCollectOut ev bat' rest (Panic "nil pointer dereference"%string)
            | Some nb =>
                match sender0 ap with
                | None => mkCollectOut ev bat' rest (Panic "index out of range"%string)
                | Some sp =>
                    if (UpperLimit sp <? Z.of_nat (ib_RowCount nb))%Z
                    then mkCollectOut ev bat' rest (Ok tt)
                    else co_prepend ev (collectBuildBatches ap merge rest bat')
                end
            end
        end
  end.

(** [sendFilter]: [ctxDone] tells which case of the [select] fires: the
    [proc.Ctx.Done()] case ([true]) or the send on the sender's channel
    ([false]). It is an input of the model, not a function of the context:
    when both cases are ready, Go picks one of them at random. Either way
    the state becomes [End] (set by [Call] after a successful
    [handleRuntimeFilter]). *)
Definition sendFilter (ctxDone : bool) (f : RuntimeFilter) : list IEvent :=
  if ctxDone then [] else [ESend f].

Definition PASS : RuntimeFilter := mkRuntimeFilter RuntimeFilter_PASS 0 [].
Definition DROP : RuntimeFilter := mkRuntimeFilter RuntimeFilter_DROP 0 [].

(** [handleRuntimeFilter]. *)
Definition handleRuntimeFilter (ap : Argument) (bat : option IBatch) (ctxDone : bool)
    : list IEvent * res unit :=
  match sender0 ap with
  | None => ([], Panic "index out of range"%string)
  | Some sp =>
      let runtimeFilter :=
        match Expr sp with
        | None => Some PASS
        | Some _ =>
            match bat with
            | None => Some DROP
            | Some b => if ib_RowCount b =? 0 then Some DROP else None
            end
        end in
      match runtimeFilter with
      | Some f => (sendFilter ctxDone f, Ok tt)
      | None =>
          match bat with
          | None => ([], Panic "nil pointer dereference"%string)
          | Some b =>
              if (UpperLimit sp <? Z.of_nat (ib_RowCount b))%Z
              then (sendFilter ctxDone PASS, Ok tt)
              else
                match ib_Vecs b with
                | [vec] =>
                    let vec' := InplaceSort vec in
                    match MarshalBinary vec' with
                    | inr e => ([], Fail e)
                    | inl data =>
                        (sendFilter ctxDone
                           (mkRuntimeFilter RuntimeFilter_IN
                              (int32_of (Z.of_nat (Length vec'))) data), Ok tt)
                    end
                | _ => ([], Panic "there must be only 1 vector in index build batch"%string)
                end
          end
      end
  end.

(** The [default] case of [Call]'s loop. *)
Definition end_phase (ctr : container) (input : list Received) : CallOut :=
  match batch ctr with
  | Some b => mkCallOut [EPutBatch (ib_id b)] StopResult (Ok tt)
                (mkContainer (state ctr) None (isMerge ctr)) input
  | None => mkCallOut [] StopResult (Ok tt) ctr input
  end.

Definition cl_prepend (ev : list IEvent) (o : CallOut) : CallOut :=
  mkCallOut (ev ++ cl_ev o) (cl_ret o) (cl_res o) (cl_ctr o) (cl_rest o).

(** The [HandleRuntimeFilter] case of [Call]'s loop and what follows. *)
Definition filter_phase (ap : Argument) (ctr : container) (input : list Received)
    (ctxDone : bool) : CallOut :=
  match handleRuntimeFilter ap (batch ctr) ctxDone with
  | (ev, Ok _) => cl_prepend ev (end_phase (mkContainer End (batch ctr) (isMerge ctr)) input)
  | (ev, Fail e) => mkCallOut ev NewResult (Fail e) ctr input
  | (ev, Panic m) => mkCallOut ev NewResult (Panic m) ctr input
  end.

(** [Call]: [cancel] is what [vm.CancelCheck] reports ([Some err] when
    the query is canceled). [ctr.build] returns what [collectBuildBatches]
    returns, so the [ReceiveBatch] case calls the latter directly. *)
Definition Call (ap : Argument) (ctr : container) (cancel : option Err)
    (input : list Received) (ctxDone : bool) : CallOut :=
  match cancel with
  | Some e => mkCallOut [] CancelResult (Fail e) ctr input
  | None =>
      match state ctr with
      | ReceiveBatch =>
          let co := collectBuildBatches ap (isMerge ctr) input (batch ctr) in
          let ctr1 := mkContainer ReceiveBatch (co_batch co) (isMerge ctr) in
          match co_res co with
          | Ok _ =>
              cl_prepend (co_ev co)
                (filter_phase ap (mkContainer HandleRuntimeFilter (co_batch co) (isMerge ctr))
                   (co_rest co) ctxDone)
          | Fail e => mkCallOut (co_ev co) NewResult (Fail e) ctr1 (co_rest co)
          | Panic m => mkCallOut (co_ev co) NewResult (Panic m) ctr1 (co_rest co)
          end
      | HandleRuntimeFilter => filter_phase ap ctr input ctxDone
      | End => end_phase ctr input
      end
  end.

End Operator.

(** Projections of the effects. *)
Definition puts (ev : list IEvent) : list nat :=
  omap (fun x => match x with EPutBatch i => Some i | _ => None end) ev.

Definition appends (ev : list IEvent) : list nat :=
  omap (fun x => match x with EAppend i => Some i | _ => None end) ev.

Definition sends (ev : list IEvent) : list RuntimeFilter :=
  omap (fun x => match x with ESend f => Some f | _ => None end) ev.

Definition receives (ev : list IEvent) : list bool :=
  omap (fun x => match x with EReceive m => Some m | _ => None end) ev.

(** The batches among received items. *)
Definition received_batches (l : list Received) : list IBatch :=
  omap (fun r => match r with RecvBatch b => Some b | _ => None end) l.

Definition is_batch (r : Received) : Prop :=
  match r with RecvBatch _ => True | _ => False end.

End IndexBuild.

(** ** Concrete inputs *)

Definition ex_okresp : list Call -> Call -> option Err := fun _ _ => None.

Definition ex_objA : ObjectEntry := mkEntry 10 2 1 5 (mkStats 10 100).
Definition ex_objB : ObjectEntry := mkEntry 11 1 1 5 (mkStats 11 50).

Definition ex_cols : list ColDef :=
  [mkColDef "a" 0 0 false; mkColDef "__mo_rowid" 1 1 true; mkColDef "b" 2 2 false].

Definition ex_schema : Schema := mkSchema "t" 3 ex_cols 8 (Some (mkSortKey 0 true)).
Definition ex_schema_nosk : Schema := mkSchema "t" 3 ex_cols 8 None.

Definition ex_entry : MergeCommitEntry :=
  mkCommit 1 5 "t" 0 [mkStats 10 100; mkStats 11 50] [mkStats 20 150] [].

Definition ex_mtask : MergeTask :=
  mkTask [ex_objA; ex_objB] [10; 11] [0; 2] 3 [] None (Some (1, 5)) 1 5.

(** A merge-and-write run that succeeds and produces one object, id 20. *)
Definition ex_merge (sortkeyPos : Z) (maxRows : nat) (task : MergeTask)
    : MergeTask * res unit :=
  (mkTask (t_mergedObjs task) (t_mergedObjsHandle task) (t_mergedBlkCnt task)
     (t_totalMergedBlkCnt task) (t_createdBObjs task) (Some ex_entry)
     (t_rel task) (t_did task) (t_tid task), Ok tt).

(** A reader returning exactly the requested columns. *)
Definition ex_read (obj : ObjectId) (blk : nat) (idxs : list nat) : BlockView + Err :=
  inl (mkView (map (fun i => mkColumn (obj * 100 + blk * 10 + i) 7) idxs) [blk]).

(** A reader whose first view lacks a column and which fails on object 11. *)
Definition ex_read_bad (obj : ObjectId) (blk : nat) (idxs : list nat) : BlockView + Err :=
  if (obj =? 11)%nat then inr 99
  else if (blk =? 0)%nat then inl (mkView [mkColumn 0 7] [])
  else ex_read obj blk idxs.

(** A catalog whose soft-delete of object 11 fails with error 7. *)
Definition ex_resp_bad_delete (tr : list Call) (c : Call) : option Err :=
  match c with CSoftDeleteObject _ _ 11 => Some 7 | _ => None end.

(** An object of another table (database 2, table 6). *)
Definition ex_objC : ObjectEntry := mkEntry 12 1 2 6 (mkStats 12 30).

(** A catalog whose lookup of object 11 fails with error 8. *)
Definition ex_resp_bad_object (tr : list Call) (c : Call) : option Err :=
  match c with CGetObject _ _ 11 => Some 8 | _ => None end.

(** A schema whose only column is the physical address. *)
Definition ex_schema_rowid : Schema :=
  mkSchema "r" 1 [mkColDef "__mo_rowid" 0 0 true] 8 None.

(** A task over one object without blocks. *)
Definition ex_mtask_noblk : MergeTask :=
  mkTask [mkEntry 30 0 1 5 (mkStats 30 0)] [30] [0] 0 [] None (Some (1, 5)) 1 5.

(** Index-build inputs: a vector is named by its length; appending adds
    the rows and the lengths; sorting keeps a vector; serialising it gives
    its length. *)
Module IndexBuildExamples.

Import IndexBuild.

Definition ex_ap : Argument := mkArgument [mkRuntimeFilterSpec (Some 1) 100].
Definition ex_ap_small : Argument := mkArgument [mkRuntimeFilterSpec (Some 1) 2].

Definition ex_append (acc : option IBatch) (b : IBatch) : option IBatch * option Err :=
  match acc with
  | None => (Some (mkIBatch 100 (ib_RowCount b) false (ib_Vecs b)), None)
  | Some a =>
      (Some (mkIBatch (ib_id a) (ib_RowCount a + ib_RowCount b) false
               (zip_with Nat.add (ib_Vecs a) (ib_Vecs b))), None)
  end.

(** An append that fails on batch 3 with error 5. *)
Definition ex_append_bad (acc : option IBatch) (b : IBatch) : option IBatch * option Err :=
  if ib_id b =? 3 then (None, Some 5) else ex_append acc b.

Definition ex_sort (v : nat) : nat := v.
Definition ex_length (v : nat) : nat := v.
Definition ex_marshal (v : nat) : list nat + Err := inl [v].

Definition ex_input : list Received :=
  [RecvBatch (mkIBatch 1 3 false [3]); RecvBatch (mkIBatch 2 0 true []);
   RecvBatch (mkIBatch 3 2 false [2]); RecvNil].

Definition ex_ctr0 : container := mkContainer ReceiveBatch None false.

End IndexBuildExamples.

(** ** Proofs about the catalog code *)

Section CatalogProofs.

Variable resp : list Call -> Call -> option Err.

Lemma run_plan_app (a b : list Call) (tr : list Call) :
  run_plan resp (a ++ b) tr =
  match run_plan resp a tr with
  | (t, Ok _) => run_plan resp b t
  | (t, Fail e) => (t, Fail e)
  | (t, Panic m) => (t, Panic m)
  end.
Proof.
  revert tr; induction a as [|c a IH]; intros tr; simpl.
  - reflexivity.
  - unfold bindM, call. destruct (outcome resp tr c); [reflexivity|].
    apply IH.
Qed.

Lemma run_plan_ok (cs : list Call) (tr t : list Call) (u : unit) :
  run_plan resp cs tr = (t, Ok u) ->
  t = tr ++ cs /\
  (forall k c, cs !! k = Some c -> outcome resp (tr ++ take k cs) c = None).
Proof.
  revert tr; induction cs as [|c cs IH]; intros tr H; simpl in H.
  - inversion H; subst. split; [by rewrite app_nil_r|]. intros k c Hk. done.
  - unfold bindM, call in H. destruct (outcome resp tr c) eqn:Ho; [discriminate|].
    destruct (IH _ H) as [-> Hall]. split; [by rewrite <- app_assoc|].
    intros [|k] c' Hk; simpl in Hk.
    + inversion Hk; subst. simpl. by rewrite app_nil_r.
    + simpl. rewrite cons_middle, app_assoc. by apply Hall.
Qed.

Lemma run_plan_fail (cs : list Call) (tr t : list Call) (e : Err) :
  run_plan resp cs tr = (t, Fail e) ->
  exists k c, cs !! k = Some c /\ t = tr ++ take (S k) cs /\
    outcome resp (tr ++ take k cs) c = Some e /\
    (forall k' c', k' < k -> cs !! k' = Some c' -> outcome resp (tr ++ take k' cs) c' = None).
Proof.
  revert tr; induction cs as [|c cs IH]; intros tr H; simpl in H.
  - discriminate.
  - unfold bindM, call in H. destruct (outcome resp tr c) as [e'|] eqn:Ho.
    + inversion H; subst. exists 0, c. simpl. rewrite app_nil_r.
      repeat split; auto. intros k' c' Hk'. lia.
    + destruct (IH _ H) as (k & c' & Hk & -> & He & Hbefore).
      rewrite <- app_assoc in He. simpl in He.
      exists (S k), c'. split; [done|]. split; [simpl; by rewrite <- app_assoc|].
      split; [done|].
      intros [|k''] c'' Hlt Hk''; simpl in Hk''.
      * inversion Hk''; subst. simpl. by rewrite app_nil_r.
      * simpl. rewrite cons_middle, app_assoc. apply Hbefore; auto. lia.
Qed.

Lemma run_plan_fail_at (cs : list Call) (tr : list Call) (k : nat) (c : Call) (e : Err) :
  cs !! k = Some c ->
  outcome resp (tr ++ take k cs) c = Some e ->
  (forall k' c', k' < k -> cs !! k' = Some c' -> outcome resp (tr ++ take k' cs) c' = None) ->
  run_plan resp cs tr = (tr ++ take (S k) cs, Fail e).
Proof.
  revert tr k; induction cs as [|c0 cs IH]; intros tr k Hk He Hbefore; [done|].
  simpl. unfold bindM, call. destruct k as [|k]; simpl in Hk.
  - inversion Hk; subst. simpl in He. rewrite app_nil_r in He. rewrite He. done.
  - assert (Ho : outcome resp tr c0 = None).
    { specialize (Hbefore 0 c0 ltac:(lia) eq_refl). simpl in Hbefore.
      by rewrite app_nil_r in Hbefore. }
    rewrite Ho. simpl.
    rewrite (IH (tr ++ [c0]) k Hk).
    + by rewrite <- app_assoc.
    + rewrite <- app_assoc. simpl in He. exact He.
    + intros k' c' Hlt Hk'. rewrite <- app_assoc.
      apply (Hbefore (S k') c'); [lia|done].
Qed.

Lemma run_plan_no_panic (cs : list Call) (tr t : list Call) (m : string) :
  run_plan resp cs tr <> (t, Panic m).
Proof.
  revert tr; induction cs as [|c cs IH]; intros tr; simpl.
  - discriminate.
  - unfold bindM, call. destruct (outcome resp tr c); [discriminate|apply IH].
Qed.

Lemma drop_loop_plan (did tid : nat) (drops : list ObjectStats) (acc : list ObjectId)
    (tr : list Call) :
  drop_loop resp did tid drops acc tr =
  match run_plan resp (drop_calls did tid drops) tr with
  | (t, Ok _) => (t, Ok (acc ++ map os_id drops))
  | (t, Fail e) => (t, Fail e)
  | (t, Panic m) => (t, Panic m)
  end.
Proof.
  revert acc tr; induction drops as [|d drops IH]; intros acc tr; simpl.
  - by rewrite app_nil_r.
  - unfold bindM, call. destruct (outcome resp tr _); [reflexivity|].
    destruct (outcome resp _ (CSoftDeleteObject did tid (os_id d))); [reflexivity|].
    rewrite IH. unfold drop_calls.
    destruct (run_plan resp _ _) as [t [u|e|m]]; try reflexivity.
    by rewrite <- app_assoc.
Qed.

Lemma create_loop_plan (did tid : nat) (created : list ObjectStats)
    (acc : list ObjectId) (tr : list Call) :
  create_loop resp did tid created acc tr =
  match run_plan resp (create_calls did tid created) tr with
  | (t, Ok _) => (t, Ok (acc ++ map os_id created))
  | (t, Fail e) => (t, Fail e)
  | (t, Panic m) => (t, Panic m)
  end.
Proof.
  revert acc tr; induction created as [|c created IH]; intros acc tr; simpl.
  - by rewrite app_nil_r.
  - unfold bindM, call. destruct (outcome resp tr _); [reflexivity|].
    destruct (outcome resp _ (CUpdateStats did tid (os_id c) c)); [reflexivity|].
    unfold outcome at 1; simpl.
    rewrite IH. unfold create_calls.
    destruct (run_plan resp _ _) as [t [u|e|m]]; try reflexivity.
    by rewrite <- app_assoc.
Qed.

Lemma bind_call (c : Call) {B} (k : M B) (tr : list Call) :
  (call resp c ;;; k) tr =
  match outcome resp tr c with
  | None => k (tr ++ [c])
  | Some e => (tr ++ [c], Fail e)
  end.
Proof. unfold bindM, call. by destruct (outcome resp tr c). Qed.

Lemma bindM_eq {A B} (m : M A) (k : A -> M B) (tr : list Call) :
  bindM m k tr =
  match m tr with
  | (t, Ok a) => k a t
  | (t, Fail e) => (t, Fail e)
  | (t, Panic s) => (t, Panic s)
  end.
Proof. reflexivity. Qed.

(** [HandleMergeEntryInTxn] issues [merge_plan entry] up to the first
    failing call, and returns the ids of the created objects. *)
Lemma HandleMergeEntryInTxn_plan (entry : MergeCommitEntry) (tr : list Call) :
  HandleMergeEntryInTxn resp entry tr =
  match run_plan resp (merge_plan entry) tr with
  | (t, Ok _) => (t, Ok (map os_id (CreatedObjectStats entry)))
  | (t, Fail e) => (t, Fail e)
  | (t, Panic m) => (t, Panic m)
  end.
Proof.
  unfold HandleMergeEntryInTxn, merge_plan.
  rewrite run_plan_app; cbn [run_plan].
  try rewrite !bind_call.
  destruct (outcome resp tr _); [reflexivity|].
  try rewrite !bind_call.
  destruct (outcome resp _ (CGetRelationByID _ _)); [reflexivity|].
  unfold retM.
  rewrite bindM_eq, drop_loop_plan, run_plan_app.
  destruct (run_plan resp (drop_calls _ _ _) _) as [t [u|e|m]]; try reflexivity.
  rewrite bindM_eq, create_loop_plan, run_plan_app.
  destruct (run_plan resp (create_calls _ _ _) _) as [t' [u'|e'|m']]; try reflexivity.
  cbn [run_plan]. rewrite ?app_nil_l, !bind_call.
  destruct (outcome resp t' _); [reflexivity|].
  try rewrite !bind_call.
  destruct (outcome resp _ (CLogTxnEntry _ _)); reflexivity.
Qed.

End CatalogProofs.

(** ** Catalog lemmas *)

Lemma drop_calls_no_create (did tid : nat) (ds : list ObjectStats) :
  List.filter is_create_call (drop_calls did tid ds) = [].
Proof. induction ds; simpl; auto. Qed.

Lemma drop_calls_no_log (did tid : nat) (ds : list ObjectStats) :
  List.filter is_log_call (drop_calls did tid ds) = [].
Proof. induction ds; simpl; auto. Qed.

Lemma create_calls_creates (did tid : nat) (cs : list ObjectStats) :
  List.filter is_create_call (create_calls did tid cs) =
  map (fun s => CCreateNonAppendableObject did tid (os_id s)) cs.
Proof. induction cs; simpl; f_equal; auto. Qed.

Lemma create_calls_no_log (did tid : nat) (cs : list ObjectStats) :
  List.filter is_log_call (create_calls did tid cs) = [].
Proof. induction cs; simpl; auto. Qed.

Lemma in_drop_calls (did tid : nat) (ds : list ObjectStats) (s : ObjectStats) :
  In s ds -> In (CSoftDeleteObject did tid (os_id s)) (drop_calls did tid ds).
Proof.
  intros H. unfold drop_calls. apply in_flat_map. exists s. simpl; auto.
Qed.

Lemma in_create_calls_sorted (did tid : nat) (cs : list ObjectStats) (s : ObjectStats) :
  In s cs -> In (CSetSorted (os_id s)) (create_calls did tid cs).
Proof.
  intros H. unfold create_calls. apply in_flat_map. exists s. simpl; auto.
Qed.

Lemma HandleMergeEntryInTxn_ok_trace (resp : list Call -> Call -> option Err)
    (entry : MergeCommitEntry) (tr tr' : list Call) (created : list ObjectId) :
  HandleMergeEntryInTxn resp entry tr = (tr', Ok created) ->
  tr' = tr ++ merge_plan entry /\ created = map os_id (CreatedObjectStats entry).
Proof.
  rewrite HandleMergeEntryInTxn_plan.
  destruct (run_plan resp (merge_plan entry) tr) as [t [u|e|m]] eqn:Hr;
    intros H; inversion H; subst.
  destruct (run_plan_ok resp _ _ _ _ Hr) as [-> _]. auto.
Qed.

Lemma handles_loop_ok (resp : list Call -> Call -> option Err) (did tid : nat)
    (ms : list ObjectEntry) (acc hs : list ObjectId) (tr tr' : list Call) :
  handles_loop resp did tid ms acc tr = (tr', Ok (inl hs)) ->
  hs = acc ++ map oe_ID ms /\
  tr' = tr ++ map (fun m => CGetObject did tid (oe_ID m)) ms.
Proof.
  revert acc tr; induction ms as [|m ms IH]; intros acc tr H; simpl in H.
  - inversion H; subst. by rewrite !app_nil_r.
  - unfold bindM, attempt in H. destruct (outcome resp tr _); [discriminate|].
    destruct (IH _ _ H) as [-> ->]. simpl.
    by rewrite <- !app_assoc.
Qed.

(** A task built by [NewMergeObjectsTask] is well formed. *)
Lemma NewMergeObjectsTask_wf (resp : list Call -> Call -> option Err)
    (objs : list ObjectEntry) (tr tr' : list Call) (task : MergeTask) :
  NewMergeObjectsTask resp objs tr = (tr', Ok (Some task, None)) -> wf_task task.
Proof.
  unfold NewMergeObjectsTask. destruct objs as [|o rest]; [discriminate|].
  destruct (offsets_loop (o :: rest) 0) as [blk total] eqn:Hoff.
  unfold bindM at 1, attempt. destruct (outcome resp tr _); [discriminate|].
  unfold bindM at 1, attempt. destruct (outcome resp _ (CGetRelationByID _ _)); [discriminate|].
  unfold bindM.
  destruct (handles_loop resp _ _ (o :: rest) [] _) as [t [[hs|e]|e|m]] eqn:Hh;
    intros H; inversion H; subst.
  destruct (handles_loop_ok _ _ _ _ _ _ _ _ Hh) as [-> _].
  split; simpl; [exact Hoff|]. by rewrite length_map.
Qed.

(** ** Claims on construction, execution and catalog application *)

(** C1 (amended): [NewMergeObjectsTask] with an empty source-object list
    panics with "empty mergedObjs"; it issues no catalog call and returns
    no error value. *)
Theorem NewMergeObjectsTask_empty_panics (resp : list Call -> Call -> option Err)
    (tr : list Call) :
  NewMergeObjectsTask resp [] tr = (tr, Panic "empty mergedObjs"%string).
Proof. reflexivity. Qed.

(** C1 counterexample: with an empty list the constructor never returns,
    in particular it returns no error. *)
Lemma NewMergeObjectsTask_empty_no_error :
  snd (NewMergeObjectsTask ex_okresp [] []) = Panic "empty mergedObjs"%string /\
  match snd (NewMergeObjectsTask ex_okresp [] []) with
  | Ok _ | Fail _ => False
  | Panic _ => True
  end.
Proof. split; [reflexivity|exact I]. Qed.

(** C2 (amended): on success [HandleMergeEntryInTxn] marks every created
    object sorted; it is given no sort-key information, so this holds for
    tables with and without a sort key. *)
Theorem HandleMergeEntryInTxn_marks_all_sorted (resp : list Call -> Call -> option Err)
    (entry : MergeCommitEntry) (tr tr' : list Call) (created : list ObjectId) :
  HandleMergeEntryInTxn resp entry tr = (tr', Ok created) ->
  forall s, In s (CreatedObjectStats entry) -> In (CSetSorted (os_id s)) tr'.
Proof.
  intros H s Hs. destruct (HandleMergeEntryInTxn_ok_trace _ _ _ _ _ H) as [-> _].
  apply in_or_app; right. unfold merge_plan.
  apply in_or_app; right. apply in_or_app; right. apply in_or_app; left.
  by apply in_create_calls_sorted.
Qed.

(** C2 witness. *)
Lemma HandleMergeEntryInTxn_marks_all_sorted_witness :
  HandleMergeEntryInTxn ex_okresp ex_entry [] =
    (fst (HandleMergeEntryInTxn ex_okresp ex_entry []), Ok [20]) /\
  In (CSetSorted 20) (fst (HandleMergeEntryInTxn ex_okresp ex_entry [])).
Proof.
  split; [reflexivity|].
  apply (HandleMergeEntryInTxn_marks_all_sorted ex_okresp ex_entry []
           (fst (HandleMergeEntryInTxn ex_okresp ex_entry [])) [20]
           eq_refl (mkStats 20 150)).
  simpl; auto.
Defined.

(** C2 counterexample: a table without sort key whose merge succeeds and
    whose created object (id 20) is marked sorted. *)
Lemma Execute_nosortkey_marks_sorted :
  HasSortKey ex_schema_nosk = false /\
  exists tr out,
    Execute ex_okresp ex_merge ex_mtask ex_schema_nosk [] = (tr, Ok out) /\
    ex_err out = None /\ In (CSetSorted 20) tr.
Proof.
  split; [reflexivity|].
  eexists; eexists; split; [reflexivity|]. split; [reflexivity|].
  simpl. tauto.
Qed.

(** C4: the sort-key position [Execute] hands to [DoMergeAndWrite] is the
    one the writer factory is built with: the sort key's column position,
    or -1 without sort key; the factory's primary-key flag holds exactly
    when the sort key is the primary key. *)
Theorem Execute_writer_sortkey_agree (s : Schema) :
  Execute_sortkeyPos s = w_SortKeyPos (PrepareNewWriterFunc s) /\
  w_SortKeyPos (PrepareNewWriterFunc s) =
    match s_SortKey s with Some k => Z.of_nat (sk_Idx k) | None => (-1)%Z end /\
  (w_SortKeyIsPK (PrepareNewWriterFunc s) = true <->
     exists k, s_SortKey s = Some k /\ sk_IsPrimary k = true).
Proof.
  unfold Execute_sortkeyPos, PrepareNewWriterFunc, HasPK, HasSortKey, GetSingleSortKeyIdx.
  destruct (s_SortKey s) as [[idx [|]]|]; simpl.
  - split; [done|]. split; [done|]. split; [eauto|done].
  - split; [done|]. split; [done|]. split; [done|].
    intros (k & Hk & Hp). inversion Hk; subst. discriminate.
  - split; [done|]. split; [done|]. split; [done|].
    intros (k & Hk & _). discriminate.
Qed.

(** C6: on success [HandleMergeEntryInTxn] issues exactly [merge_plan
    entry]: every source object is looked up and soft-deleted, one
    non-appendable object is created per created-object statistics with
    the id of those statistics, and exactly one merge log entry is built
    and appended under (database id, table id). *)
Theorem HandleMergeEntryInTxn_success (resp : list Call -> Call -> option Err)
    (entry : MergeCommitEntry) (tr tr' : list Call) (created : list ObjectId) :
  HandleMergeEntryInTxn resp entry tr = (tr', Ok created) ->
  tr' = tr ++ merge_plan entry /\
  created = map os_id (CreatedObjectStats entry) /\
  (forall s, In s (MergedObjs entry) ->
     In (CSoftDeleteObject (DbID entry) (TableID entry) (os_id s)) tr') /\
  List.filter is_create_call (merge_plan entry) =
    map (fun s => CCreateNonAppendableObject (DbID entry) (TableID entry) (os_id s))
      (CreatedObjectStats entry) /\
  List.filter is_log_call (merge_plan entry) =
    [CNewMergeObjectsEntry (DbID entry) (TableID entry) (map os_id (MergedObjs entry))
       (map os_id (CreatedObjectStats entry)) (Booking entry);
     CLogTxnEntry (DbID entry) (TableID entry)].
Proof.
  intros H. destruct (HandleMergeEntryInTxn_ok_trace _ _ _ _ _ H) as [Htr Hc].
  split; [exact Htr|]. split; [exact Hc|]. split.
  - intros s Hs. subst tr'. apply in_or_app; right. unfold merge_plan.
    apply in_or_app; right. apply in_or_app; left. by apply in_drop_calls.
  - unfold merge_plan. rewrite !List.filter_app.
    rewrite drop_calls_no_create, create_calls_creates, drop_calls_no_log,
      create_calls_no_log.
    simpl. rewrite app_nil_r. split; reflexivity.
Qed.

(** C6 witness. *)
Lemma HandleMergeEntryInTxn_success_witness :
  In (CSoftDeleteObject 1 5 11) (fst (HandleMergeEntryInTxn ex_okresp ex_entry [])).
Proof.
  destruct (HandleMergeEntryInTxn_success ex_okresp ex_entry []
              (fst (HandleMergeEntryInTxn ex_okresp ex_entry [])) [20] eq_refl)
    as (_ & _ & Hdel & _).
  apply (Hdel (mkStats 11 50)). simpl; auto.
Defined.

(** C7: [HandleMergeEntryInTxn] fails with error [e] exactly when some
    call [c] of [merge_plan entry] (a lookup, soft-delete, create, stats
    update or log call) fails with [e] while every earlier call succeeded.
    The call then stops right after [c]: the calls issued are the plan up
    to and including [c], with no later catalog call and no undoing call,
    and the error of [c] is returned, with no created objects. *)
Theorem HandleMergeEntryInTxn_abort (resp : list Call -> Call -> option Err)
    (entry : MergeCommitEntry) (tr tr' : list Call) (e : Err) :
  HandleMergeEntryInTxn resp entry tr = (tr', Fail e) <->
  exists k c,
    merge_plan entry !! k = Some c /\
    tr' = tr ++ take (S k) (merge_plan entry) /\
    outcome resp (tr ++ take k (merge_plan entry)) c = Some e /\
    (forall k' c', k' < k -> merge_plan entry !! k' = Some c' ->
       outcome resp (tr ++ take k' (merge_plan entry)) c' = None).
Proof.
  rewrite HandleMergeEntryInTxn_plan. split.
  - destruct (run_plan resp (merge_plan entry) tr) as [t [u|e'|m]] eqn:Hr;
      intros H; inversion H; subst.
    exact (run_plan_fail resp _ _ _ _ Hr).
  - intros (k & c & Hk & -> & He & Hbefore).
    by rewrite (run_plan_fail_at resp _ _ _ _ _ Hk He Hbefore).
Qed.

(** C7 witness: the soft-delete of object 11 (the sixth call of the plan)
    fails with error 7, so the call returns 7 after those six calls. *)
Lemma HandleMergeEntryInTxn_abort_witness :
  HandleMergeEntryInTxn ex_resp_bad_delete ex_entry [] =
    ([] ++ take 6 (merge_plan ex_entry), Fail 7).
Proof.
  apply (HandleMergeEntryInTxn_abort ex_resp_bad_delete ex_entry []
           ([] ++ take 6 (merge_plan ex_entry)) 7).
  exists 5, (CSoftDeleteObject 1 5 11).
  split; [reflexivity|]. split; [reflexivity|]. split; [reflexivity|].
  intros k' c' Hlt Hk'.
  destruct k' as [|[|[|[|[|k']]]]]; simpl in Hk'; inversion Hk'; subst; try reflexivity; lia.
Defined.

(** C8: [Execute] runs the merge-and-write phase, then the catalog phase.
    When the first fails, its error is returned as is, the phase
    "1-DoMergeAndWrite" is logged with it and no catalog call is issued;
    when the second fails, its error is returned as is, the phase
    "2-HandleMergeEntryInTxn" is logged, and the calls are those of one
    single run of [HandleMergeEntryInTxn]; on success nothing is logged. *)
Theorem Execute_phases (resp : list Call -> Call -> option Err)
    (dmw : Z -> nat -> MergeTask -> MergeTask * res unit) (task : MergeTask) (s : Schema)
    (tr : list Call) :
  (forall task' e, dmw (Execute_sortkeyPos s) (s_BlockMaxRows s) task = (task', Fail e) ->
     Execute resp dmw task s tr = (tr, Ok (mkExecOut (Some e) (Some (phase1, e)) task'))) /\
  (forall task' entry tr' e,
     dmw (Execute_sortkeyPos s) (s_BlockMaxRows s) task = (task', Ok tt) ->
     t_commitEntry task' = Some entry ->
     HandleMergeEntryInTxn resp entry tr = (tr', Fail e) ->
     Execute resp dmw task s tr =
       (tr', Ok (mkExecOut (Some e) (Some (phase2, e)) (set_created task' [])))) /\
  (forall task' entry tr' created,
     dmw (Execute_sortkeyPos s) (s_BlockMaxRows s) task = (task', Ok tt) ->
     t_commitEntry task' = Some entry ->
     HandleMergeEntryInTxn resp entry tr = (tr', Ok created) ->
     Execute resp dmw task s tr =
       (tr', Ok (mkExecOut None None (set_created task' created)))).
Proof.
  unfold Execute. split; [|split].
  - intros task' e H. by rewrite H.
  - intros task' entry tr' e H He Hh. by rewrite H, He, Hh.
  - intros task' entry tr' c H He Hh. by rewrite H, He, Hh.
Qed.

(** C10: [NewMergeObjectsTask] takes database id, table id and relation
    from the first source object only, looks every source object up in that
    relation, and the commit entry carries the first object's ids. *)
Theorem NewMergeObjectsTask_first_table (resp : list Call -> Call -> option Err)
    (first : ObjectEntry) (rest : list ObjectEntry) (tr tr' : list Call)
    (task : MergeTask) :
  NewMergeObjectsTask resp (first :: rest) tr = (tr', Ok (Some task, None)) ->
  t_did task = oe_DbID first /\ t_tid task = oe_TableID first /\
  t_rel task = Some (oe_DbID first, oe_TableID first) /\
  tr' = tr ++ [CGetDatabaseByID (oe_DbID first);
               CGetRelationByID (oe_DbID first) (oe_TableID first)] ++
        map (fun m => CGetObject (oe_DbID first) (oe_TableID first) (oe_ID m))
          (first :: rest) /\
  (forall (s : Schema) (ts : nat),
     DbID (snd (PrepareCommitEntry task s ts)) = oe_DbID first /\
     TableID (snd (PrepareCommitEntry task s ts)) = oe_TableID first).
Proof.
  unfold NewMergeObjectsTask.
  destruct (offsets_loop (first :: rest) 0) as [blk total] eqn:Hoff.
  unfold bindM at 1, attempt. destruct (outcome resp tr _); [discriminate|].
  unfold bindM at 1, attempt. destruct (outcome resp _ (CGetRelationByID _ _)); [discriminate|].
  unfold bindM.
  destruct (handles_loop resp _ _ (first :: rest) [] _) as [t [[hs|e]|e|m]] eqn:Hh;
    intros H; inversion H; subst.
  destruct (handles_loop_ok _ _ _ _ _ _ _ _ Hh) as [_ ->].
  simpl. split; [done|]. split; [done|]. split; [done|]. split; [by rewrite <- !app_assoc|]. intros; split; reflexivity.
Qed.

(** C10 witness: the second object belongs to another table, yet it is
    looked up in the first object's relation. *)
Lemma NewMergeObjectsTask_first_table_witness :
  In (CGetObject 1 5 12) (fst (NewMergeObjectsTask ex_okresp [ex_objA; ex_objC] [])).
Proof.
  destruct (NewMergeObjectsTask_first_table ex_okresp ex_objA [ex_objC] []
    (fst (NewMergeObjectsTask ex_okresp [ex_objA; ex_objC] []))
    (mkTask [ex_objA; ex_objC] [10; 12] [0; 2] 3 [] None (Some (1, 5)) 1 5)
    eq_refl) as (_ & _ & _ & -> & _).
  simpl; tauto.
Defined.

(** ** PrepareData lemmas *)

Lemma uint16_small (j : nat) : (N.of_nat j < 65536)%N -> uint16 j = j.
Proof.
  intros H. unfold uint16. rewrite N.mod_small; [apply Nat2N.id|lia].
Qed.

Lemma prefixSum_0 (objs : list ObjectEntry) : prefixSum objs 0 = 0.
Proof. reflexivity. Qed.

Lemma prefixSum_cons_S (o : ObjectEntry) (objs : list ObjectEntry) (i : nat) :
  prefixSum (o :: objs) (S i) = oe_BlockCnt o + prefixSum objs i.
Proof. reflexivity. Qed.

Lemma prefixSum_S (objs : list ObjectEntry) (i : nat) (o : ObjectEntry) :
  objs !! i = Some o -> prefixSum objs (S i) = prefixSum objs i + oe_BlockCnt o.
Proof.
  revert i; induction objs as [|o' objs IH]; intros [|i] H; simpl in H;
    try discriminate.
  - inversion H; subst. unfold prefixSum; simpl. lia.
  - rewrite !prefixSum_cons_S, (IH i H). lia.
Qed.

Lemma prefixSum_le (objs : list ObjectEntry) (i : nat) :
  i <= length objs -> prefixSum objs i <= prefixSum objs (length objs).
Proof.
  revert i; induction objs as [|o objs IH]; intros [|i] H; simpl in *.
  - lia.
  - lia.
  - unfold prefixSum; simpl. lia.
  - rewrite !prefixSum_cons_S. specialize (IH i ltac:(lia)). lia.
Qed.

Lemma offsets_loop_spec (objs : list ObjectEntry) (t : nat) (cnts : list nat) (tot : nat) :
  offsets_loop objs t = (cnts, tot) ->
  length cnts = length objs /\
  (forall i, i < length objs -> cnts !! i = Some (t + prefixSum objs i)) /\
  tot = t + prefixSum objs (length objs).
Proof.
  revert t cnts tot; induction objs as [|o objs IH]; intros t cnts tot H; simpl in H.
  - inversion H; subst. split; [done|]. split; [intros; simpl in *; lia|].
    unfold prefixSum; simpl; lia.
  - destruct (offsets_loop objs (t + oe_BlockCnt o)) as [cs tt] eqn:Ho.
    inversion H; subst. destruct (IH _ _ _ Ho) as (Hl & Hi & Ht).
    split; [simpl; by rewrite Hl|]. split.
    + intros [|i] Hlt; simpl.
      * by rewrite Nat.add_0_r.
      * rewrite Hi by (simpl in Hlt; lia). rewrite prefixSum_cons_S. f_equal. lia.
    + rewrite Ht. simpl length. rewrite prefixSum_cons_S. lia.
Qed.

Lemma filled_from_snoc (m : nat) (vl : list BlockView) (v : BlockView) :
  filled_from m (vl ++ [v]) = filled_from m vl ++ [Some (m + length vl, v)].
Proof.
  unfold filled_from. rewrite imap_app. simpl. by rewrite Nat.add_0_r.
Qed.

Lemma length_filled_from (m : nat) (vl : list BlockView) :
  length (filled_from m vl) = length vl.
Proof. unfold filled_from. apply length_imap. Qed.

Lemma store_next (total : nat) (vl : list BlockView) (x : option (nat * BlockView)) :
  length vl < total ->
  go_store (filled_from 0 vl ++ replicate (total - length vl) None) (length vl) x =
  Some (filled_from 0 vl ++ x :: replicate (total - S (length vl)) None).
Proof.
  intros H. unfold go_store.
  rewrite length_app, length_filled_from, length_replicate.
  replace (length vl <? length vl + (total - length vl)) with true
    by (symmetry; apply Nat.ltb_lt; lia).
  f_equal.
  replace (total - length vl) with (S (total - S (length vl))) by lia.
  pose proof (insert_app_r (filled_from 0 vl) (replicate (S (total - S (length vl))) None) 0 x)
    as Hins.
  rewrite Nat.add_0_r, length_filled_from in Hins. rewrite Hins. reflexivity.
Qed.

Lemma Inv_snoc (total : nat) (vl : list BlockView) (st : RS) (v : BlockView) :
  Inv total vl st -> length vl < total ->
  Inv total (vl ++ [v])
    (mkRS (filled_from 0 vl ++ Some (rs_next st, v) :: replicate (total - S (length vl)) None)
       (S (rs_next st)) (rs_ev st ++ [Acquire (rs_next st)])).
Proof.
  intros (Hv & Hn & He & Hl) Hlt. rewrite Hn. unfold Inv; simpl.
  rewrite length_app; simpl. split; [|split; [|split]].
  - rewrite filled_from_snoc, <- app_assoc. simpl. do 3 f_equal. lia.
  - lia.
  - rewrite He, Nat.add_1_r, seq_S, map_app. reflexivity.
  - lia.
Qed.

Lemma read_inner_inv (read : ObjectId -> nat -> list nat -> BlockView + Err)
    (total : nat) (obj : ObjectId) (idxs : list nat) (minOff : nat) :
  forall rem j vl st,
  Inv total vl st -> minOff + j = length vl -> length vl + rem <= total ->
  match read_inner read obj idxs minOff j rem st with
  | LDone st' =>
      exists ext, length ext = rem /\ Inv total (vl ++ ext) st' /\
        (forall q v, ext !! q = Some v -> read obj (uint16 (j + q)) idxs = inl v)
  | LErr st' e =>
      exists ext, Inv total (vl ++ ext) st' /\
        (forall q v, ext !! q = Some v -> read obj (uint16 (j + q)) idxs = inl v) /\
        read obj (uint16 (j + length ext)) idxs = inr e
  | LPanic _ _ => False
  end.
Proof.
  induction rem as [|rem IH]; intros j vl st HI Hj Hle; simpl.
  - exists []. rewrite app_nil_r. split; [done|]. split; [done|].
    intros q v Hq. done.
  - pose proof HI as (Hv & Hn & He & Hl).
    rewrite Hv, Hj.
    destruct (read obj (uint16 j) idxs) as [v|e] eqn:Hr; simpl.
    + rewrite store_next by lia.
      specialize (IH (S j) (vl ++ [v])
        (mkRS (filled_from 0 vl ++ Some (rs_next st, v) :: replicate (total - S (length vl)) None)
           (S (rs_next st)) (rs_ev st ++ [Acquire (rs_next st)]))
        (Inv_snoc total vl st v HI ltac:(lia))
        ltac:(rewrite length_app; simpl; lia)
        ltac:(rewrite length_app; simpl; lia)).
      destruct (read_inner read obj idxs minOff (S j) rem _) as [st'|st' e|st' m].
      * destruct IH as (ext & Hlen & HI' & Hreads).
        exists (v :: ext). rewrite <- app_assoc in HI'. simpl.
        split; [lia|]. split; [exact HI'|].
        intros [|q] v' Hq; simpl in Hq.
        -- inversion Hq; subst. by rewrite Nat.add_0_r.
        -- rewrite <- Nat.add_succ_comm. by apply Hreads.
      * destruct IH as (ext & HI' & Hreads & Herr).
        exists (v :: ext). rewrite <- app_assoc in HI'. simpl.
        split; [exact HI'|]. split.
        -- intros [|q] v' Hq; simpl in Hq.
           ++ inversion Hq; subst. by rewrite Nat.add_0_r.
           ++ rewrite <- Nat.add_succ_comm. by apply Hreads.
        -- rewrite <- Nat.add_succ_comm. exact Herr.
      * exact IH.
    + rewrite store_next by lia.
      exists []. rewrite app_nil_r. split.
      * split; [|split; [|split]]; simpl; auto.
        replace (total - length vl) with (S (total - S (length vl))) by lia.
        reflexivity.
      * split; [intros q v Hq; done|]. by rewrite Nat.add_0_r.
Qed.

Lemma read_outer_inv (read : ObjectId -> nat -> list nat -> BlockView + Err)
    (objs : list ObjectEntry) (total : nat) (blkcnt idxs : list nat) :
  offsets_loop objs 0 = (blkcnt, total) ->
  forall hs i vl st,
  i + length hs = length objs -> length vl = prefixSum objs i -> Inv total vl st ->
  match read_outer read (length objs) total blkcnt idxs hs i st with
  | LDone st' =>
      exists ls, length ls = length hs /\ Inv total (vl ++ concat ls) st' /\
        length (vl ++ concat ls) = prefixSum objs (length objs) /\
        (forall k l h o, ls !! k = Some l -> hs !! k = Some h -> objs !! (i + k) = Some o ->
           length l = oe_BlockCnt o /\
           (forall j v, l !! j = Some v -> read h (uint16 j) idxs = inl v))
  | LErr st' e => (exists vl', Inv total vl' st') /\ exists h b, read h b idxs = inr e
  | LPanic _ _ => False
  end.
Proof.
  intros Hoff. destruct (offsets_loop_spec _ _ _ _ Hoff) as (Hlen & Hcnt & Htot).
  simpl in Htot.
  induction hs as [|h hs IH]; intros i vl st Hi Hvl HI; simpl.
  - exists []. simpl. rewrite app_nil_r. split; [done|]. split; [done|].
    simpl in Hi. split; [rewrite Hvl; f_equal; lia|].
    intros k l h o Hk. done.
  - simpl in Hi.
    destruct (lookup_lt_is_Some_2 objs i ltac:(lia)) as [o Ho].
    assert (Hmax : (if (Z.of_nat i =? Z.of_nat (length objs) - 1)%Z then Some total
                    else blkcnt !! S i) = Some (prefixSum objs (S i))).
    { destruct (Z.of_nat i =? Z.of_nat (length objs) - 1)%Z eqn:Hz.
      - apply Z.eqb_eq in Hz. rewrite Htot. do 2 f_equal. lia.
      - apply Z.eqb_neq in Hz. rewrite Hcnt by lia. reflexivity. }
    rewrite Hmax, Hcnt by lia. simpl.
    pose proof (prefixSum_S objs i o Ho) as HS.
    pose proof (prefixSum_le objs (S i) ltac:(lia)) as Hle.
    pose proof (read_inner_inv read total h idxs (prefixSum objs i)
                  (prefixSum objs (S i) - prefixSum objs i) 0 vl st HI
                  ltac:(lia) ltac:(lia)) as Hin.
    destruct (read_inner read h idxs (prefixSum objs i) 0 _ st) as [st'|st' e|st' m].
    + destruct Hin as (ext & Hext & HI' & Hreads).
      specialize (IH (S i) (vl ++ ext) st' ltac:(lia)
                    ltac:(rewrite length_app; lia) HI').
      destruct (read_outer read (length objs) total blkcnt idxs hs (S i) st')
        as [st''|st'' e|st'' m].
      * destruct IH as (ls & Hls & HI'' & Hl'' & Hk).
        exists (ext :: ls). simpl. rewrite app_assoc.
        split; [lia|]. split; [exact HI''|]. split; [exact Hl''|].
        intros [|k] l h' o' Hl Hh Ho'; simpl in Hl, Hh.
        -- inversion Hl; inversion Hh; subst. rewrite Nat.add_0_r, Ho in Ho'.
           inversion Ho'; subst. split; [lia|]. exact Hreads.
        -- apply (Hk k l h' o' Hl Hh). by replace (S i + k) with (i + S k) by lia.
      * exact IH.
      * exact IH.
    + destruct Hin as (ext & HI' & _ & Herr).
      split; [eauto|]. eauto.
    + exact Hin.
Qed.

Lemma collect_cols_spec (defs : list ColDef) :
  collect_cols defs =
  (map Idx (List.filter (fun d => negb (IsPhyAddr d)) defs),
   map Name (List.filter (fun d => negb (IsPhyAddr d)) defs)).
Proof.
  induction defs as [|d defs IH]; simpl; [done|].
  rewrite IH. by destruct (IsPhyAddr d).
Qed.

Lemma filled_from_cons (m : nat) (v : BlockView) (vl : list BlockView) :
  filled_from m (v :: vl) = Some (m, v) :: filled_from (S m) vl.
Proof.
  unfold filled_from. rewrite imap_cons. f_equal.
  - by rewrite Nat.add_0_r.
  - apply imap_ext. intros i x _. simpl. do 2 f_equal. lia.
Qed.

Lemma releaseF_filled (m k : nat) (vl : list BlockView) :
  releaseF (filled_from m vl ++ replicate k None) = map Close (seq m (length vl)).
Proof.
  unfold releaseF. rewrite flat_map_app.
  assert (Hr : flat_map (fun o : option (nat * BlockView) =>
                 match o with Some (n, _) => [Close n] | None => [] end)
                 (replicate k None) = []) by (induction k; simpl; auto).
  rewrite Hr, app_nil_r. clear Hr.
  revert m; induction vl as [|v vl IH]; intros m; [done|].
  rewrite filled_from_cons. simpl. f_equal. apply IH.
Qed.

Lemma acquired_map_Acquire (l : list nat) : acquired (map Acquire l) = l.
Proof. induction l; simpl; f_equal; auto. Qed.

Lemma closed_map_Acquire (l : list nat) : closed (map Acquire l) = [].
Proof. induction l; simpl; auto. Qed.

Lemma acquired_map_Close (l : list nat) : acquired (map Close l) = [].
Proof. induction l; simpl; auto. Qed.

Lemma closed_map_Close (l : list nat) : closed (map Close l) = l.
Proof. induction l; simpl; f_equal; auto. Qed.

Lemma acquired_app (a b : list ViewEvent) : acquired (a ++ b) = acquired a ++ acquired b.
Proof. unfold acquired. apply omap_app. Qed.

Lemma closed_app (a b : list ViewEvent) : closed (a ++ b) = closed a ++ closed b.
Proof. unfold closed. apply omap_app. Qed.

Lemma Inv_init (total : nat) : Inv total [] (mkRS (replicate total None) 0 []).
Proof. unfold Inv; simpl. rewrite Nat.sub_0_r. repeat split; lia. Qed.

Lemma build_batches_ok (attrs : list string) (m : nat) (vl : list BlockView)
    (bs : list Batch) (ds : list (list nat)) :
  build_batches attrs (filled_from m vl) = inr (bs, ds) ->
  length bs = length vl /\ length ds = length vl /\
  (forall p v, vl !! p = Some v ->
     length (Columns v) = length attrs /\
     exists b, bs !! p = Some b /\ Attrs b = attrs /\
       Vecs b = map col_data (Columns v) /\ ds !! p = Some (DeleteMask v)).
Proof.
  revert m bs ds; induction vl as [|v vl IH]; intros m bs ds H.
  - simpl in H. inversion H; subst. split; [done|]. split; [done|]. done.
  - rewrite filled_from_cons in H. simpl in H.
    destruct (length attrs =? length (Columns v)) eqn:Heq; simpl in H; [|discriminate].
    apply Nat.eqb_eq in Heq.
    destruct (Columns v) as [|c0 cs] eqn:Hc; [discriminate|].
    destruct (build_batches attrs (filled_from (S m) vl)) as [msg|[bs' ds']] eqn:Hb;
      [discriminate|].
    inversion H; subst.
    destruct (IH _ _ _ Hb) as (Hl1 & Hl2 & Hp).
    split; [simpl; lia|]. split; [simpl; lia|].
    intros [|p] v' Hv'; simpl in Hv'.
    + inversion Hv'; subst. rewrite Hc. split; [done|].
      eexists; split; [reflexivity|]. simpl. auto.
    + exact (Hp p v' Hv').
Qed.

Lemma build_batches_mismatch (attrs : list string) (m : nat) (vl : list BlockView) :
  build_batches attrs (filled_from m vl) = inl "mismatch"%string ->
  exists p v, vl !! p = Some v /\ length (Columns v) <> length attrs.
Proof.
  revert m; induction vl as [|v vl IH]; intros m H.
  - discriminate.
  - rewrite filled_from_cons in H. simpl in H.
    destruct (length attrs =? length (Columns v)) eqn:Heq; simpl in H.
    + destruct (Columns v) as [|c0 cs]; [discriminate|].
      destruct (build_batches attrs (filled_from (S m) vl)) as [msg|[bs' ds']] eqn:Hb;
        [|discriminate].
      inversion H; subst.
      destruct (IH _ Hb) as (p & v' & Hp & Hne). exists (S p), v'. auto.
    + exists 0, v. split; [done|]. apply Nat.eqb_neq in Heq. lia.
Qed.

Lemma lookup_concat_inv {A} (ls : list (list A)) (p : nat) (v : A) :
  concat ls !! p = Some v -> exists k l j, ls !! k = Some l /\ l !! j = Some v.
Proof.
  revert p; induction ls as [|l ls IH]; intros p H; simpl in H; [discriminate|].
  apply lookup_app_Some in H as [H|[_ H]].
  - exists 0, l, p. auto.
  - destruct (IH _ H) as (k & l' & j & Hk & Hj). exists (S k), l', j. auto.
Qed.

Lemma lookup_concat_at {A} (ls : list (list A)) (k : nat) (l : list A) (j : nat) :
  ls !! k = Some l -> j < length l ->
  concat ls !! (sum_list (map length (take k ls)) + j) = l !! j.
Proof.
  revert k; induction ls as [|l' ls IH]; intros k Hk Hj; [discriminate|].
  destruct k as [|k]; simpl in Hk |- *.
  - inversion Hk; subst. by rewrite lookup_app_l.
  - rewrite lookup_app_r by lia.
    replace (length l' + sum_list (map length (take k ls)) + j - length l')
      with (sum_list (map length (take k ls)) + j) by lia.
    by apply IH.
Qed.

Lemma sum_lengths_prefixSum {A} (ls : list (list A)) (objs : list ObjectEntry) :
  length ls = length objs ->
  (forall k l o, ls !! k = Some l -> objs !! k = Some o -> length l = oe_BlockCnt o) ->
  forall k, sum_list (map length (take k ls)) = prefixSum objs k.
Proof.
  revert objs; induction ls as [|l ls IH]; intros [|o objs] Hlen Hk k;
    simpl in Hlen; try discriminate.
  - unfold prefixSum. by rewrite !take_nil.
  - destruct k as [|k]; [reflexivity|].
    rewrite prefixSum_cons_S. simpl.
    rewrite (Hk 0 l o eq_refl eq_refl). f_equal.
    apply IH; [lia|]. intros k' l' o' H1 H2. exact (Hk (S k') l' o' H1 H2).
Qed.

(** The read loops of [PrepareData] on a well-formed task. *)
Lemma PrepareData_read_loops (read : ObjectId -> nat -> list nat -> BlockView + Err)
    (task : MergeTask) (s : Schema) :
  wf_task task ->
  let objs := t_mergedObjs task in
  let total := t_totalMergedBlkCnt task in
  let idxs := map Idx (nonphys_cols s) in
  total = prefixSum objs (length objs) /\
  match read_outer read (length objs) total (t_mergedBlkCnt task) idxs
          (t_mergedObjsHandle task) 0 (mkRS (replicate total None) 0 []) with
  | LDone st' =>
      exists ls, length ls = length objs /\ Inv total (concat ls) st' /\
        length (concat ls) = total /\
        (forall k l o, ls !! k = Some l -> objs !! k = Some o -> length l = oe_BlockCnt o) /\
        (forall k l h o, ls !! k = Some l -> t_mergedObjsHandle task !! k = Some h ->
           objs !! k = Some o ->
           (forall j v, l !! j = Some v -> read h (uint16 j) idxs = inl v))
  | LErr st' e => (exists vl', Inv total vl' st') /\ exists h b, read h b idxs = inr e
  | LPanic _ _ => False
  end.
Proof.
  intros [Hoff Hlen]; cbv zeta.
  destruct (offsets_loop_spec _ _ _ _ Hoff) as (_ & _ & Htot). simpl in Htot.
  split; [exact Htot|].
  pose proof (read_outer_inv read (t_mergedObjs task) (t_totalMergedBlkCnt task)
                (t_mergedBlkCnt task) (map Idx (nonphys_cols s)) Hoff
                (t_mergedObjsHandle task) 0 [] _ ltac:(simpl; lia) eq_refl
                (Inv_init _)) as Hr.
  destruct (read_outer _ _ _ _ _ _ _ _) as [st|st e|st m]; [|exact Hr|exact Hr].
  destruct Hr as (ls & Hls & HI & Hl & Hk). simpl in HI, Hl.
  exists ls. split; [lia|]. split; [exact HI|]. split; [lia|]. split.
  - intros k l o Hl' Ho.
    assert (Hkh : k < length (t_mergedObjsHandle task)).
    { rewrite <- Hls. by eapply lookup_lt_Some. }
    destruct (lookup_lt_is_Some_2 _ _ Hkh) as [h Hh].
    exact (proj1 (Hk k l h o Hl' Hh Ho)).
  - intros k l h o Hl' Hh Ho. exact (proj2 (Hk k l h o Hl' Hh Ho)).
Qed.

Lemma read_inner_sched (read : ObjectId -> nat -> list nat -> BlockView + Err)
    (total : nat) (obj : ObjectId) (idxs : list nat) (minOff : nat) :
  forall rem j vl st,
  Inv total vl st -> minOff + j = length vl -> length vl + rem <= total ->
  match read_inner read obj idxs minOff j rem st with
  | LDone st' =>
      exists ext, reads_ok read idxs (map (fun j' => (obj, uint16 j')) (seq j rem)) ext /\
        Inv total (vl ++ ext) st'
  | LErr st' e =>
      exists pre hb post ext,
        map (fun j' => (obj, uint16 j')) (seq j rem) = pre ++ hb :: post /\
        reads_ok read idxs pre ext /\ read hb.1 hb.2 idxs = inr e /\
        Inv total (vl ++ ext) st'
  | LPanic _ _ => False
  end.
Proof.
  induction rem as [|rem IH]; intros j vl st HI Hj Hle; simpl.
  - exists []. rewrite app_nil_r. split; [constructor|done].
  - pose proof HI as (Hv & Hn & He & Hl).
    rewrite Hv, Hj.
    destruct (read obj (uint16 j) idxs) as [v|e] eqn:Hr; simpl.
    + rewrite store_next by lia.
      specialize (IH (S j) (vl ++ [v])
        (mkRS (filled_from 0 vl ++ Some (rs_next st, v) :: replicate (total - S (length vl)) None)
           (S (rs_next st)) (rs_ev st ++ [Acquire (rs_next st)]))
        (Inv_snoc total vl st v HI ltac:(lia))
        ltac:(rewrite length_app; simpl; lia)
        ltac:(rewrite length_app; simpl; lia)).
      destruct (read_inner read obj idxs minOff (S j) rem _) as [st'|st' e|st' m].
      * destruct IH as (ext & Hok & HI').
        exists (v :: ext). rewrite <- app_assoc in HI'. split; [|exact HI'].
        constructor; [exact Hr|exact Hok].
      * destruct IH as (pre & hb & post & ext & Heq & Hok & Herr & HI').
        exists ((obj, uint16 j) :: pre), hb, post, (v :: ext).
        rewrite <- app_assoc in HI'. rewrite Heq.
        split; [done|]. split; [constructor; [exact Hr|exact Hok]|]. auto.
      * exact IH.
    + rewrite store_next by lia.
      exists [], (obj, uint16 j), (map (fun j' => (obj, uint16 j')) (seq (S j) rem)), [].
      split; [done|]. split; [constructor|]. split; [exact Hr|].
      rewrite app_nil_r. split; [|split; [|split]]; simpl; auto.
      replace (total - length vl) with (S (total - S (length vl))) by lia.
      reflexivity.
Qed.

Lemma read_outer_sched (read : ObjectId -> nat -> list nat -> BlockView + Err)
    (objs : list ObjectEntry) (total : nat) (blkcnt idxs : list nat) :
  offsets_loop objs 0 = (blkcnt, total) ->
  forall hs i vl st,
  i + length hs = length objs -> length vl = prefixSum objs i -> Inv total vl st ->
  match read_outer read (length objs) total blkcnt idxs hs i st with
  | LDone st' =>
      exists vs, reads_ok read idxs (concat (zip_with block_read_list hs (drop i objs))) vs /\
        Inv total (vl ++ vs) st'
  | LErr st' e =>
      exists pre hb post ext,
        concat (zip_with block_read_list hs (drop i objs)) = pre ++ hb :: post /\
        reads_ok read idxs pre ext /\ read hb.1 hb.2 idxs = inr e /\
        Inv total (vl ++ ext) st'
  | LPanic _ _ => False
  end.
Proof.
  intros Hoff. destruct (offsets_loop_spec _ _ _ _ Hoff) as (Hlen & Hcnt & Htot).
  simpl in Htot.
  induction hs as [|h hs IH]; intros i vl st Hi Hvl HI; simpl.
  - exists []. rewrite app_nil_r. split; [constructor|done].
  - simpl in Hi.
    destruct (lookup_lt_is_Some_2 objs i ltac:(lia)) as [o Ho].
    assert (Hmax : (if (Z.of_nat i =? Z.of_nat (length objs) - 1)%Z then Some total
                    else blkcnt !! S i) = Some (prefixSum objs (S i))).
    { destruct (Z.of_nat i =? Z.of_nat (length objs) - 1)%Z eqn:Hz.
      - apply Z.eqb_eq in Hz. rewrite Htot. do 2 f_equal. lia.
      - apply Z.eqb_neq in Hz. rewrite Hcnt by lia. reflexivity. }
    rewrite Hmax, Hcnt by lia. simpl.
    pose proof (prefixSum_S objs i o Ho) as HS.
    pose proof (prefixSum_le objs (S i) ltac:(lia)) as Hle.
    rewrite (drop_S objs o i Ho). simpl.
    replace (prefixSum objs (S i) - prefixSum objs i) with (oe_BlockCnt o) by lia.
    pose proof (read_inner_sched read total h idxs (prefixSum objs i)
                  (oe_BlockCnt o) 0 vl st HI ltac:(lia) ltac:(lia)) as Hin.
    change (block_read_list h o) with
      (map (fun j' => (h, uint16 j')) (seq 0 (oe_BlockCnt o))).
    destruct (read_inner read h idxs (prefixSum objs i) 0 _ st) as [st'|st' e|st' m].
    + destruct Hin as (ext & Hok & HI').
      pose proof (Forall2_length _ _ _ Hok) as Hext.
      rewrite length_map, length_seq in Hext.
      specialize (IH (S i) (vl ++ ext) st' ltac:(lia)
                    ltac:(rewrite length_app; lia) HI').
      destruct (read_outer read (length objs) total blkcnt idxs hs (S i) st')
        as [st''|st'' e|st'' m].
      * destruct IH as (vs & Hok' & HI'').
        exists (ext ++ vs). rewrite app_assoc. split; [|exact HI''].
        by apply Forall2_app.
      * destruct IH as (pre & hb & post & ext' & Heq & Hok' & Herr & HI'').
        exists (map (fun j' => (h, uint16 j')) (seq 0 (oe_BlockCnt o)) ++ pre), hb, post,
          (ext ++ ext').
        rewrite Heq, <- app_assoc. split; [done|].
        split; [by apply Forall2_app|]. split; [exact Herr|].
        by rewrite app_assoc.
      * exact IH.
    + destruct Hin as (pre & hb & post & ext & Heq & Hok & Herr & HI').
      exists pre, hb, (post ++ concat (zip_with block_read_list hs (drop (S i) objs))), ext.
      rewrite Heq, <- app_assoc. auto.
    + exact Hin.
Qed.

Lemma length_block_reads (hs : list ObjectId) (objs : list ObjectEntry) :
  length hs = length objs ->
  length (concat (zip_with block_read_list hs objs)) = sum_list (map oe_BlockCnt objs).
Proof.
  revert objs; induction hs as [|h hs IH]; intros [|o objs] Hl; simpl in Hl;
    try discriminate; [done|].
  simpl. rewrite length_app, IH by lia. unfold block_read_list.
  by rewrite length_map, length_seq.
Qed.

(** The read loops of [PrepareData] issue [block_reads task] in order and
    stop at the first read that fails. *)
Lemma PrepareData_sched (read : ObjectId -> nat -> list nat -> BlockView + Err)
    (task : MergeTask) (s : Schema) :
  wf_task task ->
  let total := t_totalMergedBlkCnt task in
  let idxs := map Idx (nonphys_cols s) in
  length (block_reads task) = total /\
  match read_outer read (length (t_mergedObjs task)) total (t_mergedBlkCnt task) idxs
          (t_mergedObjsHandle task) 0 (mkRS (replicate total None) 0 []) with
  | LDone st' => exists vs, reads_ok read idxs (block_reads task) vs /\ Inv total vs st'
  | LErr st' e =>
      exists pre hb post ext,
        block_reads task = pre ++ hb :: post /\
        reads_ok read idxs pre ext /\ read hb.1 hb.2 idxs = inr e /\ Inv total ext st'
  | LPanic _ _ => False
  end.
Proof.
  intros [Hoff Hlen]; cbv zeta.
  destruct (offsets_loop_spec _ _ _ _ Hoff) as (_ & _ & Htot). simpl in Htot.
  split.
  - unfold block_reads. rewrite length_block_reads by exact Hlen.
    rewrite Htot. unfold prefixSum. by rewrite firstn_all.
  - pose proof (read_outer_sched read (t_mergedObjs task) (t_totalMergedBlkCnt task)
                  (t_mergedBlkCnt task) (map Idx (nonphys_cols s)) Hoff
                  (t_mergedObjsHandle task) 0 [] _ ltac:(simpl; lia) eq_refl
                  (Inv_init _)) as Hr.
    unfold block_reads. rewrite drop_0 in Hr.
    destruct (read_outer _ _ _ _ _ _ _ _); exact Hr.
Qed.

(** Only the first failing read of a schedule can be the one [pre ++ hb :: _]
    stops at. *)
Lemma first_failure_unique (read : ObjectId -> nat -> list nat -> BlockView + Err)
    (idxs : list nat) (sched pre post ext : list _) (hb : ObjectId * nat) (e' : Err)
    (k : nat) (h : ObjectId) (b : nat) (e : Err) :
  sched = pre ++ hb :: post -> reads_ok read idxs pre ext -> read hb.1 hb.2 idxs = inr e' ->
  sched !! k = Some (h, b) -> read h b idxs = inr e ->
  (forall k' h' b', k' < k -> sched !! k' = Some (h', b') -> exists v, read h' b' idxs = inl v) ->
  k = length pre /\ hb = (h, b) /\ e' = e.
Proof.
  intros -> Hok Herr' Hk Herr Hbefore.
  destruct (lt_eq_lt_dec k (length pre)) as [[Hlt|Heq]|Hgt].
  - rewrite lookup_app_l in Hk by lia.
    destruct (Forall2_lookup_l _ _ _ _ _ Hok Hk) as (v & _ & Hv). simpl in Hv.
    congruence.
  - subst k. rewrite list_lookup_middle in Hk by done. inversion Hk; subst.
    simpl in Herr'. split; [done|]. split; [done|]. congruence.
  - destruct hb as [h' b'].
    destruct (Hbefore (length pre) h' b' Hgt) as [v Hv].
    + by rewrite list_lookup_middle.
    + simpl in Herr'. congruence.
Qed.

Lemma build_batches_bad (attrs : list string) (m : nat) (vl : list BlockView) :
  (exists p v, vl !! p = Some v /\ length (Columns v) <> length attrs) ->
  exists msg, build_batches attrs (filled_from m vl) = inl msg /\
    (attrs <> [] -> msg = "mismatch"%string).
Proof.
  revert m; induction vl as [|v vl IH]; intros m (p & v' & Hp & Hne).
  - discriminate.
  - rewrite filled_from_cons. simpl.
    destruct (length attrs =? length (Columns v)) eqn:Heq; simpl.
    + apply Nat.eqb_eq in Heq.
      destruct (Columns v) as [|c0 cs] eqn:Hc.
      * exists "index out of range"%string. split; [done|].
        intros Hn. exfalso. apply Hn. by apply length_zero_iff_nil.
      * destruct p as [|p]; simpl in Hp.
        -- inversion Hp; subst. rewrite Hc in Hne. simpl in *. lia.
        -- destruct (IH (S m) (ex_intro _ p (ex_intro _ v' (conj Hp Hne))))
             as (msg & Hb & Hmsg).
           rewrite Hb. eauto.
    + exists "mismatch"%string. auto.
Qed.

(** ** Claims on PrepareData *)

(** C3: on a task built by [NewMergeObjectsTask], when a block read fails,
    [PrepareData] closes exactly the views it acquired, each once, before
    returning the error; on success it closes none itself, and invoking
    the returned release function closes each acquired view exactly once. *)
Theorem PrepareData_releases (read : ObjectId -> nat -> list nat -> BlockView + Err)
    (task : MergeTask) (s : Schema) :
  wf_task task ->
  (forall ev e, PrepareData read task s = (ev, PDErr e) ->
     closed ev = acquired ev /\ NoDup (acquired ev)) /\
  (forall ev bs ds rel, PrepareData read task s = (ev, PDOk bs ds rel) ->
     closed ev = [] /\ closed (ev ++ rel) = acquired (ev ++ rel) /\
     NoDup (acquired (ev ++ rel))).
Proof.
  intros Hwf. destruct (PrepareData_read_loops read task s Hwf) as [_ Hr].
  unfold PrepareData. rewrite collect_cols_spec.
  destruct (read_outer _ _ _ _ _ _ _ _) as [st|st e|st m].
  - destruct Hr as (ls & _ & (Hv & _ & He & _) & _).
    split.
    + intros ev e H. destruct (build_batches _ _) as [msg|[bs ds]]; discriminate.
    + intros ev bs ds rel H.
      destruct (build_batches _ _) as [msg|[bs' ds']]; inversion H; subst.
      rewrite Hv, He, releaseF_filled.
      rewrite closed_app, acquired_app, closed_map_Acquire, closed_map_Close,
        acquired_map_Acquire, acquired_map_Close, app_nil_r.
      split; [done|]. split; [done|]. apply NoDup_seq.
  - destruct Hr as ((vl & Hv & _ & He & _) & _). split.
    + intros ev e' H. inversion H; subst.
      rewrite Hv, He, releaseF_filled.
      rewrite closed_app, acquired_app, closed_map_Acquire, closed_map_Close,
        acquired_map_Acquire, acquired_map_Close, app_nil_r.
      split; [done|]. apply NoDup_seq.
    + intros ev bs ds rel H. discriminate.
  - contradiction.
Qed.

(** C3 witness: the second object's read fails after two views were
    acquired; both are closed. *)
Lemma PrepareData_releases_witness :
  wf_task ex_mtask /\
  closed (fst (PrepareData ex_read_bad ex_mtask ex_schema)) = [0; 1] /\
  closed (fst (PrepareData ex_read_bad ex_mtask ex_schema)) =
    acquired (fst (PrepareData ex_read_bad ex_mtask ex_schema)).
Proof.
  assert (Hwf : wf_task ex_mtask) by (split; reflexivity).
  split; [exact Hwf|]. split; [reflexivity|].
  apply (proj1 (PrepareData_releases ex_read_bad ex_mtask ex_schema Hwf)
           (fst (PrepareData ex_read_bad ex_mtask ex_schema)) 99).
  reflexivity.
Defined.

(** C5: on a task built by [NewMergeObjectsTask] whose objects have at
    most 65536 blocks each (block offsets within an object are [uint16]),
    a successful [PrepareData] returns one batch and one delete mask per
    source block: block [j] of object [i] sits at offset
    [prefixSum i + j], its batch holds exactly the columns that are not the
    physical address, read from that block, and its mask is that block's. *)
Theorem PrepareData_blocks (read : ObjectId -> nat -> list nat -> BlockView + Err)
    (task : MergeTask) (s : Schema) (ev : list ViewEvent) (bs : list Batch)
    (ds : list (list nat)) (rel : list ViewEvent) :
  wf_task task ->
  Forall (fun o => (N.of_nat (oe_BlockCnt o) <= 65536)%N) (t_mergedObjs task) ->
  PrepareData read task s = (ev, PDOk bs ds rel) ->
  length bs = prefixSum (t_mergedObjs task) (length (t_mergedObjs task)) /\
  length ds = prefixSum (t_mergedObjs task) (length (t_mergedObjs task)) /\
  (forall i o h j,
     t_mergedObjs task !! i = Some o -> t_mergedObjsHandle task !! i = Some h ->
     j < oe_BlockCnt o ->
     exists v b,
       read h j (map Idx (nonphys_cols s)) = inl v /\
       bs !! (prefixSum (t_mergedObjs task) i + j) = Some b /\
       Attrs b = map Name (nonphys_cols s) /\
       Vecs b = map col_data (Columns v) /\
       ds !! (prefixSum (t_mergedObjs task) i + j) = Some (DeleteMask v)).
Proof.
  intros Hwf Hcap H. destruct (PrepareData_read_loops read task s Hwf) as [Htot Hr].
  unfold PrepareData in H. rewrite collect_cols_spec in H.
  destruct (read_outer _ _ _ _ _ _ _ _) as [st|st e|st m]; [|discriminate|discriminate].
  destruct Hr as (ls & Hls & (Hv & _ & _ & _) & Hl & Hcnt & Hreads).
  destruct (build_batches _ _) as [msg|[bs' ds']] eqn:Hb; inversion H; subst.
  rewrite Hv, Hl, Nat.sub_diag, app_nil_r in Hb.
  apply build_batches_ok in Hb as (Hb1 & Hb2 & Hbp).
  split; [lia|]. split; [lia|].
  intros i o h j Ho Hh Hj.
  assert (Hi : i < length ls) by (rewrite Hls; by eapply lookup_lt_Some).
  destruct (lookup_lt_is_Some_2 _ _ Hi) as [l Hli].
  pose proof (Hcnt i l o Hli Ho) as Hll.
  destruct (lookup_lt_is_Some_2 l j ltac:(lia)) as [v Hvj].
  pose proof (Hreads i l h o Hli Hh Ho j v Hvj) as Hrd.
  pose proof (Forall_lookup_1 _ _ _ _ Hcap Ho) as Hc; simpl in Hc.
  rewrite uint16_small in Hrd by lia.
  assert (Hcat : concat ls !! (prefixSum (t_mergedObjs task) i + j) = Some v).
  { rewrite <- (sum_lengths_prefixSum ls (t_mergedObjs task) Hls Hcnt i).
    rewrite lookup_concat_at with (l := l); [exact Hvj|exact Hli|lia]. }
  destruct (Hbp _ _ Hcat) as (_ & b & Hbb & Hattrs & Hvecs & Hds).
  exists v, b. auto.
Qed.

(** C5 witness: object 11 is the second object; its only block is batch 2. *)
Lemma PrepareData_blocks_witness :
  exists v b,
    ex_read 11 0 (map Idx (nonphys_cols ex_schema)) = inl v /\
    (match snd (PrepareData ex_read ex_mtask ex_schema) with
     | PDOk bs _ _ => bs | _ => [] end) !! 2 = Some b /\
    Attrs b = ["a"; "b"]%string /\ Vecs b = map col_data (Columns v).
Proof.
  assert (Hwf : wf_task ex_mtask) by (split; reflexivity).
  destruct (PrepareData_blocks ex_read ex_mtask ex_schema
              (fst (PrepareData ex_read ex_mtask ex_schema))
              (match snd (PrepareData ex_read ex_mtask ex_schema) with
               | PDOk bs _ _ => bs | _ => [] end)
              (match snd (PrepareData ex_read ex_mtask ex_schema) with
               | PDOk _ ds _ => ds | _ => [] end)
              (match snd (PrepareData ex_read ex_mtask ex_schema) with
               | PDOk _ _ r => r | _ => [] end)
              Hwf
              ltac:(repeat constructor; simpl; lia)
              eq_refl) as (_ & _ & Hblk).
  destruct (Hblk 1 ex_objB 11 0 eq_refl eq_refl ltac:(simpl; lia))
    as (v & b & Hr & Hb & Ha & Hvec & _).
  exists v, b. split; [exact Hr|]. split; [exact Hb|]. split; [exact Ha|exact Hvec].
Defined.

(** C9 (amended): a column-count mismatch is never reported as an
    error, and it panics only when no block read fails. On a task built by
    [NewMergeObjectsTask], with [block_reads task] the reads [PrepareData]
    issues in order: (1) when a read fails and every read before it
    succeeded, that read's error is returned, whatever the column counts
    of the views read before it; (2) when every read succeeds and some view
    has a wrong column count, [PrepareData] panics, with the mismatch
    message when some column is requested; (3) on success every view read
    has exactly the requested number of columns; (4) every error returned
    is the error of the first failing block read; (5) when every view has
    the requested number of columns, the mismatch panic is never raised. *)
Theorem PrepareData_mismatch (read : ObjectId -> nat -> list nat -> BlockView + Err)
    (task : MergeTask) (s : Schema) :
  wf_task task ->
  (forall k h b e,
     block_reads task !! k = Some (h, b) -> read h b (map Idx (nonphys_cols s)) = inr e ->
     (forall k' h' b', k' < k -> block_reads task !! k' = Some (h', b') ->
        exists v, read h' b' (map Idx (nonphys_cols s)) = inl v) ->
     snd (PrepareData read task s) = PDErr e) /\
  ((forall k h b, block_reads task !! k = Some (h, b) ->
      exists v, read h b (map Idx (nonphys_cols s)) = inl v) ->
   forall k h b v, block_reads task !! k = Some (h, b) ->
     read h b (map Idx (nonphys_cols s)) = inl v ->
     length (Columns v) <> length (nonphys_cols s) ->
     exists m, snd (PrepareData read task s) = PDPanic m /\
       (nonphys_cols s <> [] -> m = "mismatch"%string)) /\
  (forall ev bs ds rel, PrepareData read task s = (ev, PDOk bs ds rel) ->
     forall k h b v, block_reads task !! k = Some (h, b) ->
       read h b (map Idx (nonphys_cols s)) = inl v ->
       length (Columns v) = length (nonphys_cols s)) /\
  (forall ev e, PrepareData read task s = (ev, PDErr e) ->
     exists k h b, block_reads task !! k = Some (h, b) /\
       read h b (map Idx (nonphys_cols s)) = inr e /\
       (forall k' h' b', k' < k -> block_reads task !! k' = Some (h', b') ->
          exists v, read h' b' (map Idx (nonphys_cols s)) = inl v)) /\
  ((forall k h b v, block_reads task !! k = Some (h, b) ->
      read h b (map Idx (nonphys_cols s)) = inl v ->
      length (Columns v) = length (nonphys_cols s)) ->
   forall ev, PrepareData read task s <> (ev, PDPanic "mismatch"%string)).
Proof.
  intros Hwf. destruct (PrepareData_sched read task s Hwf) as [Hlen Hr].
  unfold PrepareData. rewrite collect_cols_spec.
  change (List.filter (fun d => negb (IsPhyAddr d)) (s_ColDefs s)) with (nonphys_cols s).
  destruct (read_outer _ _ _ _ _ _ _ _) as [st|st e0|st m]; [| |contradiction].
  - destruct Hr as (vs & Hok & (Hv & _ & _ & _)).
    pose proof (Forall2_length _ _ _ Hok) as Hvs.
    rewrite Hv, <- Hvs, Hlen, Nat.sub_diag, app_nil_r.
    split; [|split; [|split; [|split]]].
    + intros k h b e Hk Herr _.
      destruct (Forall2_lookup_l _ _ _ _ _ Hok Hk) as (v & _ & Hv'). simpl in Hv'.
      congruence.
    + intros _ k h b v Hk Hrd Hne.
      destruct (Forall2_lookup_l _ _ _ _ _ Hok Hk) as (v' & Hv' & Hrd'). simpl in Hrd'.
      rewrite Hrd in Hrd'. inversion Hrd'; subst v'.
      assert (Hne' : length (Columns v) <> length (map Name (nonphys_cols s)))
        by (by rewrite length_map).
      destruct (build_batches_bad (map Name (nonphys_cols s)) 0 vs
                  (ex_intro _ k (ex_intro _ v (conj Hv' Hne'))))
        as (msg & Hb & Hmsg).
      rewrite Hb. exists msg. split; [done|].
      intros Hn. apply Hmsg. intros Hm. apply Hn. by apply map_eq_nil in Hm.
    + intros ev bs ds rel H k h b v Hk Hrd.
      destruct (build_batches _ _) as [msg|[bs' ds']] eqn:Hb; inversion H; subst.
      apply build_batches_ok in Hb as (_ & _ & Hbp).
      destruct (Forall2_lookup_l _ _ _ _ _ Hok Hk) as (v' & Hv' & Hrd'). simpl in Hrd'.
      rewrite Hrd in Hrd'. inversion Hrd'; subst v'.
      destruct (Hbp _ _ Hv') as (Hcols & _). by rewrite Hcols, length_map.
    + intros ev e H. destruct (build_batches _ _) as [msg|[bs' ds']]; discriminate.
    + intros Hall ev H.
      destruct (build_batches _ _) as [msg|[bs' ds']] eqn:Hb; inversion H; subst.
      destruct (build_batches_mismatch _ _ _ Hb) as (p & v & Hp & Hne).
      destruct (Forall2_lookup_r _ _ _ _ _ Hok Hp) as ([h b] & Hk & Hrd). simpl in Hrd.
      apply Hne. by rewrite (Hall p h b v Hk Hrd), length_map.
  - destruct Hr as (pre & hb & post & ext & Heq & Hok & Herr & _).
    split; [|split; [|split; [|split]]].
    + intros k h b e Hk Hrd Hbefore.
      destruct (first_failure_unique read _ _ _ _ _ _ _ k h b e Heq Hok Herr Hk Hrd Hbefore)
        as (_ & _ & ->).
      reflexivity.
    + intros Hall. destruct hb as [h b].
      destruct (Hall (length pre) h b) as [v Hv].
      * by rewrite Heq, list_lookup_middle.
      * simpl in Herr. congruence.
    + intros ev bs ds rel H. discriminate.
    + intros ev e H. inversion H; subst e. destruct hb as [h b].
      exists (length pre), h, b. split; [by rewrite Heq, list_lookup_middle|].
      split; [exact Herr|].
      intros k' h' b' Hlt Hk'. rewrite Heq, lookup_app_l in Hk' by lia.
      destruct (Forall2_lookup_l _ _ _ _ _ Hok Hk') as (v & _ & Hv). eauto.
    + intros _ ev H. discriminate.
Qed.

(** C9 witness: the first view read lacks a column, and the third block
    read (object 11) fails with error 99 after the two reads of object 10
    succeeded: error 99 is returned, not the mismatch panic. *)
Lemma PrepareData_mismatch_witness :
  wf_task ex_mtask /\
  snd (PrepareData ex_read_bad ex_mtask ex_schema) = PDErr 99.
Proof.
  assert (Hwf : wf_task ex_mtask) by (split; reflexivity).
  split; [exact Hwf|].
  apply (proj1 (PrepareData_mismatch ex_read_bad ex_mtask ex_schema Hwf) 2 11 0 99).
  - reflexivity.
  - reflexivity.
  - intros k' h' b' Hlt Hk'.
    destruct k' as [|[|k']]; simpl in Hk'; inversion Hk'; subst; [| |lia]; eexists; reflexivity.
Defined.

(** C9 counterexample: the first view read lacks a column, yet no panic
    occurs: a later read of object 11 fails and its error is returned. *)
Lemma PrepareData_mismatch_then_read_error :
  ex_read_bad 10 0 (map Idx (nonphys_cols ex_schema)) = inl (mkView [mkColumn 0 7] []) /\
  length [mkColumn 0 7] <> length (nonphys_cols ex_schema) /\
  In (Acquire 0) (fst (PrepareData ex_read_bad ex_mtask ex_schema)) /\
  snd (PrepareData ex_read_bad ex_mtask ex_schema) = PDErr 99.
Proof.
  split; [reflexivity|]. split; [simpl; lia|]. split; [simpl; tauto|]. reflexivity.
Qed.

(** ** Further properties of the merge task *)

Lemma handles_loop_fail (resp : list Call -> Call -> option Err) (did tid : nat)
    (ms : list ObjectEntry) (acc : list ObjectId) (tr tr' : list Call) (e : Err) :
  handles_loop resp did tid ms acc tr = (tr', Ok (inr e)) ->
  exists k m, ms !! k = Some m /\
    tr' = tr ++ map (fun m => CGetObject did tid (oe_ID m)) (take (S k) ms) /\
    outcome resp (tr ++ map (fun m => CGetObject did tid (oe_ID m)) (take k ms))
      (CGetObject did tid (oe_ID m)) = Some e /\
    (forall k' m', k' < k -> ms !! k' = Some m' ->
       outcome resp (tr ++ map (fun m => CGetObject did tid (oe_ID m)) (take k' ms))
         (CGetObject did tid (oe_ID m')) = None).
Proof.
  revert acc tr; induction ms as [|m ms IH]; intros acc tr H; simpl in H.
  - discriminate.
  - unfold bindM, attempt in H.
    destruct (outcome resp tr _) as [e'|] eqn:Ho.
    + inversion H; subst. exists 0, m. simpl. rewrite app_nil_r.
      split; [done|]. split; [done|]. split; [done|]. intros k' m' Hlt. lia.
    + destruct (IH _ _ H) as (k & m' & Hk & -> & Hout & Hbefore).
      exists (S k), m'. simpl. split; [done|].
      rewrite <- !app_assoc in Hout. split; [by rewrite <- !app_assoc|].
      split; [exact Hout|].
      intros [|k'] m'' Hlt Hk'; simpl in Hk'.
      * inversion Hk'; subst. simpl. by rewrite app_nil_r.
      * simpl. rewrite cons_middle, app_assoc. apply Hbefore; [lia|done].
Qed.

Lemma seqnums_loop_filter (defs : list ColDef) :
  seqnums_loop defs = map SeqNum (List.filter (fun d => negb (IsPhyAddr d)) defs).
Proof.
  induction defs as [|d defs IH]; simpl; [done|].
  destruct (IsPhyAddr d); simpl; by rewrite IH.
Qed.

Lemma prefixSum_length (objs : list ObjectEntry) :
  prefixSum objs (length objs) = sum_list (map oe_BlockCnt objs).
Proof. unfold prefixSum. by rewrite firstn_all. Qed.

(** On a successful construction, the task holds the source objects,
    their handles in the same order, the offset table and the block total. *)
Theorem NewMergeObjectsTask_layout (resp : list Call -> Call -> option Err)
    (objs : list ObjectEntry) (tr tr' : list Call) (task : MergeTask) :
  NewMergeObjectsTask resp objs tr = (tr', Ok (Some task, None)) ->
  t_mergedObjs task = objs /\
  t_mergedObjsHandle task = map oe_ID objs /\
  length (t_mergedBlkCnt task) = length objs /\
  (forall i, i < length objs -> t_mergedBlkCnt task !! i = Some (prefixSum objs i)) /\
  t_totalMergedBlkCnt task = sum_list (map oe_BlockCnt objs) /\
  t_createdBObjs task = [] /\ t_commitEntry task = None.
Proof.
  unfold NewMergeObjectsTask. destruct objs as [|o rest]; [discriminate|].
  destruct (offsets_loop (o :: rest) 0) as [blk total] eqn:Hoff.
  unfold bindM at 1, attempt. destruct (outcome resp tr _); [discriminate|].
  unfold bindM at 1, attempt. destruct (outcome resp _ (CGetRelationByID _ _)); [discriminate|].
  unfold bindM.
  destruct (handles_loop resp _ _ (o :: rest) [] _) as [t [[hs|e]|e|m]] eqn:Hh;
    intros H; inversion H; subst.
  destruct (handles_loop_ok _ _ _ _ _ _ _ _ Hh) as [-> _].
  destruct (offsets_loop_spec _ _ _ _ Hoff) as (Hl & Hi & Ht).
  simpl. split; [done|]. split; [done|]. split; [exact Hl|]. split.
  - intros i Hlt. rewrite (Hi i Hlt). done.
  - split; [|done]. rewrite Ht, prefixSum_length. done.
Qed.

(** When [NewMergeObjectsTask] returns an error, either the database or
    relation lookup failed and a non-nil task is returned with the error
    (no relation, no handles), or an object lookup failed and a nil task is
    returned: the lookups of the objects before it all succeeded, and no
    object after it was looked up. *)
Theorem NewMergeObjectsTask_errors (resp : list Call -> Call -> option Err)
    (objs : list ObjectEntry) (tr tr' : list Call) (ot : option MergeTask) (e : Err) :
  NewMergeObjectsTask resp objs tr = (tr', Ok (ot, Some e)) ->
  exists first rest, objs = first :: rest /\
  ((exists task, ot = Some task /\ t_rel task = None /\ t_mergedObjsHandle task = [] /\
      t_mergedObjs task = objs /\ t_did task = oe_DbID first /\
      ((tr' = tr ++ [CGetDatabaseByID (oe_DbID first)] /\
        outcome resp tr (CGetDatabaseByID (oe_DbID first)) = Some e /\ t_tid task = 0) \/
       (tr' = tr ++ [CGetDatabaseByID (oe_DbID first);
                     CGetRelationByID (oe_DbID first) (oe_TableID first)] /\
        outcome resp (tr ++ [CGetDatabaseByID (oe_DbID first)])
          (CGetRelationByID (oe_DbID first) (oe_TableID first)) = Some e /\
        t_tid task = oe_TableID first))) \/
   (ot = None /\
    exists k m, objs !! k = Some m /\
      tr' = tr ++ [CGetDatabaseByID (oe_DbID first);
                   CGetRelationByID (oe_DbID first) (oe_TableID first)] ++
            map (fun m => CGetObject (oe_DbID first) (oe_TableID first) (oe_ID m))
              (take (S k) objs) /\
      outcome resp (tr ++ [CGetDatabaseByID (oe_DbID first);
                           CGetRelationByID (oe_DbID first) (oe_TableID first)] ++
                    map (fun m => CGetObject (oe_DbID first) (oe_TableID first) (oe_ID m))
                      (take k objs))
        (CGetObject (oe_DbID first) (oe_TableID first) (oe_ID m)) = Some e /\
      (forall k' m', k' < k -> objs !! k' = Some m' ->
         outcome resp (tr ++ [CGetDatabaseByID (oe_DbID first);
                              CGetRelationByID (oe_DbID first) (oe_TableID first)] ++
                       map (fun m => CGetObject (oe_DbID first) (oe_TableID first) (oe_ID m))
                         (take k' objs))
           (CGetObject (oe_DbID first) (oe_TableID first) (oe_ID m')) = None))).
Proof.
  unfold NewMergeObjectsTask. destruct objs as [|o rest]; [discriminate|].
  destruct (offsets_loop (o :: rest) 0) as [blk total] eqn:Hoff.
  unfold bindM at 1, attempt. destruct (outcome resp tr _) as [e1|] eqn:H1.
  { intros H. inversion H; subst. exists o, rest. split; [done|]. left.
    eexists; split; [reflexivity|]. simpl. do 4 (split; [done|]). left. auto. }
  unfold bindM at 1, attempt. destruct (outcome resp _ (CGetRelationByID _ _)) as [e2|] eqn:H2.
  { intros H. inversion H; subst. exists o, rest. split; [done|]. left.
    eexists; split; [reflexivity|]. simpl. do 4 (split; [done|]). right.
    rewrite <- app_assoc. auto. }
  unfold bindM.
  destruct (handles_loop resp _ _ (o :: rest) [] _) as [t [[hs|e3]|e3|m]] eqn:Hh;
    intros H; inversion H; subst.
  destruct (handles_loop_fail _ _ _ _ _ _ _ _ Hh) as (k & m & Hk & Ht & Hout & Hbefore).
  exists o, rest. split; [done|]. right. split; [done|].
  exists k, m. split; [exact Hk|]. rewrite <- !app_assoc in Ht, Hout. simpl in Ht, Hout.
  split; [exact Ht|]. split; [exact Hout|].
  intros k' m' Hlt Hk'. specialize (Hbefore k' m' Hlt Hk').
  rewrite <- !app_assoc in Hbefore. exact Hbefore.
Qed.

(** The writer factory receives one sequence number per column that
    [PrepareData] reads, in the same order, and the schema version. *)
Theorem PrepareNewWriterFunc_columns (s : Schema) :
  w_Version (PrepareNewWriterFunc s) = s_Version s /\
  w_SeqNums (PrepareNewWriterFunc s) = map SeqNum (nonphys_cols s) /\
  collect_cols (s_ColDefs s) = (map Idx (nonphys_cols s), map Name (nonphys_cols s)).
Proof.
  unfold PrepareNewWriterFunc.
  destruct (if HasPK s then _ else _) as [p b].
  simpl. split; [done|]. split.
  - apply seqnums_loop_filter.
  - apply collect_cols_spec.
Qed.

(** After [Execute], [GetCreatedObjects] lists the objects created by the
    committed merge, in the order of the commit entry, when [Execute]
    succeeds, and the catalog calls are exactly those of the merge plan;
    when the merge-and-write engine succeeded but [Execute] returns an
    error (the catalog phase failed), it is empty. *)
Theorem Execute_GetCreatedObjects (resp : list Call -> Call -> option Err)
    (dmw : Z -> nat -> MergeTask -> MergeTask * res unit) (task : MergeTask) (s : Schema)
    (tr tr' : list Call) (out : ExecOut) :
  Execute resp dmw task s tr = (tr', Ok out) ->
  (ex_err out = None ->
     exists task' entry,
       dmw (Execute_sortkeyPos s) (s_BlockMaxRows s) task = (task', Ok tt) /\
       t_commitEntry task' = Some entry /\
       tr' = tr ++ merge_plan entry /\
       GetCreatedObjects (ex_task out) = map os_id (CreatedObjectStats entry)) /\
  (forall task' e,
     dmw (Execute_sortkeyPos s) (s_BlockMaxRows s) task = (task', Ok tt) ->
     ex_err out = Some e ->
     GetCreatedObjects (ex_task out) = [] /\
     exists entry, t_commitEntry task' = Some entry /\
       HandleMergeEntryInTxn resp entry tr = (tr', Fail e)).
Proof.
  unfold Execute.
  destruct (dmw _ _ task) as [task' [[]|e|m]] eqn:Hd; intros H.
  - destruct (t_commitEntry task') as [entry|] eqn:Hc; [|discriminate].
    destruct (HandleMergeEntryInTxn resp entry tr) as [t [c|e|m]] eqn:Hm;
      inversion H; subst; clear H.
    + split.
      * intros _. exists task', entry. split; [done|]. split; [done|].
        destruct (HandleMergeEntryInTxn_ok_trace _ _ _ _ _ Hm) as [-> ->]. auto.
      * intros task'' e' _ He. discriminate.
    + split; [intros Hn; discriminate|]. intros task'' e' Hd' He.
      inversion Hd'; subst. inversion He; subst. split; [done|]. eauto.
  - inversion H; subst. split; [intros Hn; discriminate|].
    intros task'' e' Hd'. discriminate.
  - discriminate.
Qed.

(** A schema whose only column is the physical address, on a task with at
    least one block whose reads all succeed: [PrepareData] panics (on the
    column-count check or on [view.Columns[0]]) instead of returning. *)
Theorem PrepareData_no_columns_panics (read : ObjectId -> nat -> list nat -> BlockView + Err)
    (task : MergeTask) (s : Schema) :
  wf_task task ->
  nonphys_cols s = [] ->
  0 < t_totalMergedBlkCnt task ->
  (forall h b, exists v, read h b [] = inl v) ->
  snd (PrepareData read task s) = PDPanic "mismatch"%string \/
  snd (PrepareData read task s) = PDPanic "index out of range"%string.
Proof.
  intros Hwf Hnp Hpos Hall.
  destruct (PrepareData_read_loops read task s Hwf) as [_ Hr].
  unfold PrepareData. rewrite collect_cols_spec.
  destruct (read_outer _ _ _ _ _ _ _ _) as [st|st e|st m].
  - destruct Hr as (ls & _ & (Hv & _ & _ & _) & Hl & _).
    rewrite Hv, Hl, Nat.sub_diag, app_nil_r.
    destruct (concat ls) as [|v vl]; [simpl in Hl; lia|].
    rewrite filled_from_cons. unfold nonphys_cols in Hnp. rewrite Hnp. simpl.
    destruct (Columns v) as [|c cs]; simpl; auto.
  - destruct Hr as (_ & h & b & He). pose proof Hnp as Hnp'.
    unfold nonphys_cols in Hnp'. rewrite ?Hnp, ?Hnp' in He.
    simpl in He. destruct (Hall h b) as [v Hv]. congruence.
  - contradiction.
Qed.

Lemma read_outer_no_blocks (read : ObjectId -> nat -> list nat -> BlockView + Err)
    (n : nat) (blkcnt idxs : list nat) :
  length blkcnt = n ->
  (forall k, k < n -> blkcnt !! k = Some 0) ->
  forall hs i st, i + length hs = n ->
  read_outer read n 0 blkcnt idxs hs i st = LDone st.
Proof.
  intros Hlen Hz hs; induction hs as [|h hs IH]; intros i st Hi; simpl; [done|].
  simpl in Hi.
  assert (Hmax : (if (Z.of_nat i =? Z.of_nat n - 1)%Z then Some 0 else blkcnt !! S i) = Some 0).
  { destruct (Z.eqb_spec (Z.of_nat i) (Z.of_nat n - 1)); [done|].
    apply Hz. lia. }
  rewrite Hmax, (Hz i ltac:(lia)). simpl. apply IH. lia.
Qed.

(** A task with no block at all: [PrepareData] reads nothing, acquires no
    view and returns no batch, no delete mask and a release function that
    closes nothing. *)
Theorem PrepareData_no_blocks (read : ObjectId -> nat -> list nat -> BlockView + Err)
    (task : MergeTask) (s : Schema) :
  wf_task task ->
  t_totalMergedBlkCnt task = 0 ->
  PrepareData read task s = ([], PDOk [] [] []).
Proof.
  intros [Hoff Hlen] H0.
  destruct (offsets_loop_spec _ _ _ _ Hoff) as (Hl & Hi & Ht).
  unfold PrepareData. rewrite H0.
  destruct (collect_cols (s_ColDefs s)) as [idxs attrs].
  rewrite (read_outer_no_blocks read (length (t_mergedObjs task)) (t_mergedBlkCnt task)
             idxs Hl); [reflexivity| |lia].
  intros k Hk. rewrite (Hi k Hk). f_equal.
  pose proof (prefixSum_le (t_mergedObjs task) k ltac:(lia)). lia.
Qed.

(** ** Properties of the index-build operator *)

Section FilterProofs.

Import IndexBuild.

Variable InplaceSort : nat -> nat.
Variable Length : nat -> nat.
Variable MarshalBinary : nat -> list nat + Err.

Lemma sendFilter_sends (cd : bool) (f : RuntimeFilter) :
  sends (sendFilter cd f) = if cd then [] else [f].
Proof. by destruct cd. Qed.

Lemma sendFilter_receives (cd : bool) (f : RuntimeFilter) :
  receives (sendFilter cd f) = [].
Proof. by destruct cd. Qed.

Lemma handleRuntimeFilter_ev (ap : Argument) (bat : option IBatch) (cd : bool) :
  (exists f, handleRuntimeFilter InplaceSort Length MarshalBinary ap bat cd =
             (sendFilter cd f, Ok tt)) \/
  (fst (handleRuntimeFilter InplaceSort Length MarshalBinary ap bat cd) = [] /\
   snd (handleRuntimeFilter InplaceSort Length MarshalBinary ap bat cd) <> Ok tt).
Proof.
  unfold handleRuntimeFilter.
  destruct (sender0 ap) as [sp|]; [|right; split; [done|discriminate]].
  destruct (Expr sp); [destruct bat as [b|]; [destruct (ib_RowCount b =? 0)|]|];
    try (left; eexists; reflexivity).
  destruct (UpperLimit sp <? _)%Z; [left; eexists; reflexivity|].
  destruct (ib_Vecs b) as [|v [|v' vs]]; try (right; split; [done|discriminate]).
  destruct (MarshalBinary (InplaceSort v)); [left; eexists; reflexivity|].
  right; split; [done|discriminate].
Qed.


(** [handleRuntimeFilter] with a sender: when it returns nil it has sent
    one filter, unless its [select] took the [ctx.Done()] case ([cd]), in
    which case it sent none; the filter is a PASS filter exactly when
    the spec has no expression or the batch exceeds the limit, a DROP
    filter exactly when there is an expression and no row, and otherwise an
    IN filter built from the single sorted vector, whose [Card] is the
    [int32] of that vector's length; a serialisation error is returned
    without sending; a batch without exactly one vector makes it panic. *)
Theorem handleRuntimeFilter_choice (ap : Argument) (sp : RuntimeFilterSpec)
    (bat : option IBatch) (cd : bool) (ev : list IEvent) (r : res unit) :
  sender0 ap = Some sp ->
  handleRuntimeFilter InplaceSort Length MarshalBinary ap bat cd = (ev, r) ->
  (r = Ok tt ->
     exists f, ev = sendFilter cd f /\
       (Typ f = RuntimeFilter_PASS <->
          Expr sp = None \/
          exists b, bat = Some b /\ ib_RowCount b <> 0 /\
            (UpperLimit sp < Z.of_nat (ib_RowCount b))%Z) /\
       (Typ f = RuntimeFilter_DROP <->
          Expr sp <> None /\
          (bat = None \/ exists b, bat = Some b /\ ib_RowCount b = 0)) /\
       (Typ f = RuntimeFilter_IN ->
          Expr sp <> None /\
          exists b v, bat = Some b /\ 0 < ib_RowCount b /\
            (Z.of_nat (ib_RowCount b) <= UpperLimit sp)%Z /\
            ib_Vecs b = [v] /\
            MarshalBinary (InplaceSort v) = inl (Data f) /\
            Card f = int32_of (Z.of_nat (Length (InplaceSort v))))) /\
  (forall e, r = Fail e ->
     ev = [] /\ exists b v, bat = Some b /\ ib_Vecs b = [v] /\
       MarshalBinary (InplaceSort v) = inr e) /\
  (forall m, r = Panic m ->
     ev = [] /\ m = "there must be only 1 vector in index build batch"%string /\
     exists b, bat = Some b /\ length (ib_Vecs b) <> 1).
Proof.
  intros Hsp. unfold handleRuntimeFilter. rewrite Hsp.
  destruct (Expr sp) as [x|] eqn:Hx.
  2: { intros H; inversion H; subst. split; [|split; intros; discriminate].
       intros _. exists PASS. split; [done|]. simpl. naive_solver. }
  destruct bat as [b|].
  2: { intros H; inversion H; subst. split; [|split; intros; discriminate].
       intros _. exists DROP. split; [done|]. simpl. naive_solver. }
  destruct (ib_RowCount b =? 0) eqn:H0.
  { apply Nat.eqb_eq in H0.
    intros H; inversion H; subst. split; [|split; intros; discriminate].
    intros _. exists DROP. split; [done|]. simpl. naive_solver. }
  apply Nat.eqb_neq in H0.
  destruct (UpperLimit sp <? Z.of_nat (ib_RowCount b))%Z eqn:Hlt.
  { apply Z.ltb_lt in Hlt.
    intros H; inversion H; subst. split; [|split; intros; discriminate].
    intros _. exists PASS. split; [done|]. simpl. naive_solver. }
  apply Z.ltb_ge in Hlt.
  destruct (ib_Vecs b) as [|v [|v' vs]] eqn:Hv.
  1,3: intros H; inversion H; subst; split; [intros; discriminate|];
       split; [intros; discriminate|];
       intros m Hm; inversion Hm; subst; split; [done|]; split; [done|];
       exists b; split; [done|rewrite Hv; simpl; lia].
  destruct (MarshalBinary (InplaceSort v)) as [data|e] eqn:Hm.
  - intros H; inversion H; subst. split; [|split; intros; discriminate].
    intros _. eexists. split; [reflexivity|]. simpl.
    split; [split; [discriminate|]|].
    { intros [Hn|(b' & Hb & _ & Hl)]; [discriminate|]. inversion Hb; subst. lia. }
    split; [split; [discriminate|]|].
    { intros [_ [Hn|(b' & Hb & Hz)]]; [discriminate|]. inversion Hb; subst. congruence. }
    intros _. split; [discriminate|]. exists b, v.
    split; [done|]. split; [lia|]. split; [lia|]. auto.
  - intros H; inversion H; subst. split; [intros; discriminate|].
    split; [|intros; discriminate]. intros e' He'. inversion He'; subst.
    split; [done|]. exists b, v. auto.
Qed.
End FilterProofs.

Section CollectProofs.

Import IndexBuild.

Variable AppendWithCopy : option IBatch -> IBatch -> option IBatch * option Err.

Lemma omap_app_ev {A} (f : IEvent -> option A) (a b : list IEvent) :
  omap f (a ++ b) = omap f a ++ omap f b.
Proof. apply omap_app. Qed.

Lemma collect_effects (ap : Argument) (merge : bool) (input : list Received)
    (bat : option IBatch) :
  sends (co_ev (collectBuildBatches AppendWithCopy ap merge input bat)) = [] /\
  Forall (fun m => m = merge)
    (receives (co_ev (collectBuildBatches AppendWithCopy ap merge input bat))).
Proof.
  revert bat; induction input as [|r input IH]; intros bat; simpl.
  - split; [done|]. by repeat constructor.
  - destruct r as [b| |e]; simpl.
    + destruct (ib_IsEmpty b).
      * unfold co_prepend; simpl. unfold sends, receives in *. simpl.
        destruct (IH bat) as [Hs Hr]. split; [done|]. by constructor.
      * destruct (AppendWithCopy bat b) as [bat' [e|]]; simpl.
        { split; [done|]. by repeat constructor. }
        destruct bat' as [nb|]; simpl.
        2: { split; [done|]. by repeat constructor. }
        destruct (sender0 ap) as [sp|]; simpl.
        2: { split; [done|]. by repeat constructor. }
        destruct (UpperLimit sp <? _)%Z; simpl.
        { split; [done|]. by repeat constructor. }
        unfold co_prepend; simpl. unfold sends, receives in *. simpl.
        destruct (IH (Some nb)) as [Hs Hr]. split; [done|]. by constructor.
    + split; [done|]. by repeat constructor.
    + split; [done|]. by repeat constructor.
Qed.
(** [collectBuildBatches], when it returns without error: it has read a
    prefix of the input; every batch read is handed back to the pool once,
    in order; exactly the non-empty ones were appended; it sends no filter. *)
Theorem collectBuildBatches_pool (ap : Argument) (merge : bool) (input : list Received)
    (bat : option IBatch) (co : CollectOut) :
  collectBuildBatches AppendWithCopy ap merge input bat = co ->
  co_res co = Ok tt ->
  exists pre, input = pre ++ co_rest co /\
    puts (co_ev co) = map ib_id (received_batches pre) /\
    appends (co_ev co) =
      map ib_id (List.filter (fun b => negb (ib_IsEmpty b)) (received_batches pre)) /\
    sends (co_ev co) = [].
Proof.
  intros Hco. pose proof (proj1 (collect_effects ap merge input bat)) as Hs.
  rewrite Hco in Hs. subst co. revert bat Hs.
  induction input as [|r input IH]; intros bat Hs Hok; simpl in *.
  - exists []. simpl. auto.
  - destruct r as [b| |e]; simpl in *.
    + destruct (ib_IsEmpty b) eqn:He.
      * unfold co_prepend in *; simpl in *.
        pose proof (proj1 (collect_effects ap merge input bat)) as Hs'.
        destruct (IH bat Hs' Hok) as (pre & Hin & Hp & Ha & _).
        exists (RecvBatch b :: pre). simpl. rewrite He. simpl.
        unfold puts, appends in *. simpl. rewrite Hp, Ha.
        split; [simpl; congruence|]. auto.
      * destruct (AppendWithCopy bat b) as [bat' [e|]]; simpl in *; [discriminate|].
        destruct bat' as [nb|]; simpl in *; [|discriminate].
        destruct (sender0 ap) as [sp|]; simpl in *; [|discriminate].
        destruct (UpperLimit sp <? _)%Z; simpl in *.
        { exists [RecvBatch b]. simpl. rewrite He. auto. }
        unfold co_prepend in *; simpl in *.
        pose proof (proj1 (collect_effects ap merge input (Some nb))) as Hs'.
        destruct (IH (Some nb) Hs' Hok) as (pre & Hin & Hp & Ha & _).
        exists (RecvBatch b :: pre). simpl. rewrite He. simpl.
        unfold puts, appends in *. simpl. rewrite Hp, Ha.
        split; [simpl; congruence|]. auto.
    + exists [RecvNil]. simpl. auto.
    + discriminate.
Qed.

(** When [collectBuildBatches] returns without error, either it read
    every batch up to a nil batch (or the end of the input), or it stopped
    early because the accumulated batch holds more rows than the first
    sender's [UpperLimit]. *)
Theorem collectBuildBatches_stop (ap : Argument) (merge : bool) (input : list Received)
    (bat : option IBatch) (co : CollectOut) :
  collectBuildBatches AppendWithCopy ap merge input bat = co ->
  co_res co = Ok tt ->
  (exists pre, input = pre ++ RecvNil :: co_rest co /\ Forall is_batch pre) \/
  (co_rest co = [] /\ Forall is_batch input) \/
  (exists b sp, co_batch co = Some b /\ sender0 ap = Some sp /\
     (UpperLimit sp < Z.of_nat (ib_RowCount b))%Z).
Proof.
  intros <-. revert bat.
  induction input as [|r input IH]; intros bat Hok; simpl in *.
  - right; left. auto.
  - destruct r as [b| |e]; simpl in *.
    + destruct (ib_IsEmpty b) eqn:He.
      * unfold co_prepend in *; simpl in *.
        destruct (IH bat Hok) as [(pre & Hin & Hf)|[(Hr & Hf)|Hx]].
        -- left. exists (RecvBatch b :: pre). split; [simpl; congruence|].
           constructor; [exact I|exact Hf].
        -- right; left. split; [exact Hr|]. constructor; [exact I|exact Hf].
        -- right; right. exact Hx.
      * destruct (AppendWithCopy bat b) as [bat' [e|]]; simpl in *; [discriminate|].
        destruct bat' as [nb|]; simpl in *; [|discriminate].
        destruct (sender0 ap) as [sp|] eqn:Hsp; simpl in *; [|discriminate].
        destruct (UpperLimit sp <? _)%Z eqn:Hlt; simpl in *.
        { right; right. exists nb, sp. split; [done|]. split; [done|]. lia. }
        unfold co_prepend in *; simpl in *.
        destruct (IH (Some nb) Hok) as [(pre & Hin & Hf)|[(Hr & Hf)|Hx]].
        -- left. exists (RecvBatch b :: pre). split; [simpl; congruence|].
           constructor; [exact I|exact Hf].
        -- right; left. split; [exact Hr|]. constructor; [exact I|exact Hf].
        -- right; right. exact Hx.
    + left. exists []. auto.
    + discriminate.
Qed.

(** [collectBuildBatches] returning an error: the error is the receiver's
    or the append's, nothing after the failing item is read, no filter is
    sent, and the batches handed back to the pool are those read before the
    failing item: a batch whose append fails is not handed back. *)
Theorem collectBuildBatches_error (ap : Argument) (merge : bool) (input : list Received)
    (bat : option IBatch) (co : CollectOut) (e : Err) :
  collectBuildBatches AppendWithCopy ap merge input bat = co ->
  co_res co = Fail e ->
  exists pre, Forall is_batch pre /\
    puts (co_ev co) = map ib_id (received_batches pre) /\
    sends (co_ev co) = [] /\
    (input = pre ++ RecvErr e :: co_rest co \/
     exists b acc, input = pre ++ RecvBatch b :: co_rest co /\ ib_IsEmpty b = false /\
       AppendWithCopy acc b = (co_batch co, Some e)).
Proof.
  intros Hco. pose proof (proj1 (collect_effects ap merge input bat)) as Hs.
  rewrite Hco in Hs. subst co. revert bat Hs.
  induction input as [|r input IH]; intros bat Hs Hok; simpl in *.
  - discriminate.
  - destruct r as [b| |e']; simpl in *.
    + destruct (ib_IsEmpty b) eqn:He.
      * unfold co_prepend in *; simpl in *.
        pose proof (proj1 (collect_effects ap merge input bat)) as Hs'.
        destruct (IH bat Hs' Hok) as (pre & Hf & Hp & _ & Hx).
        exists (RecvBatch b :: pre). split; [constructor; [exact I|exact Hf]|].
        unfold puts in *. simpl. rewrite Hp. split; [done|]. split; [exact Hs|].
        destruct Hx as [Hin|(b' & acc & Hin & Hb)]; [left; simpl; congruence|].
        right. exists b', acc. split; [simpl; congruence|]. auto.
      * destruct (AppendWithCopy bat b) as [bat' [e'|]] eqn:Ha; simpl in *.
        { inversion Hok; subst. exists []. split; [constructor|]. split; [done|].
          split; [done|]. right. exists b, bat. auto. }
        destruct bat' as [nb|]; simpl in *; [|discriminate].
        destruct (sender0 ap) as [sp|]; simpl in *; [|discriminate].
        destruct (UpperLimit sp <? _)%Z; simpl in *; [discriminate|].
        unfold co_prepend in *; simpl in *.
        pose proof (proj1 (collect_effects ap merge input (Some nb))) as Hs'.
        destruct (IH (Some nb) Hs' Hok) as (pre & Hf & Hp & _ & Hx).
        exists (RecvBatch b :: pre). split; [constructor; [exact I|exact Hf]|].
        unfold puts in *. simpl. rewrite Hp. split; [done|]. split; [exact Hs|].
        destruct Hx as [Hin|(b' & acc & Hin & Hb)]; [left; simpl; congruence|].
        right. exists b', acc. split; [simpl; congruence|]. auto.
    + discriminate.
    + inversion Hok; subst. exists []. split; [constructor|]. auto.
Qed.

End CollectProofs.

Section CallProofs.

Import IndexBuild.

Variable AppendWithCopy : option IBatch -> IBatch -> option IBatch * option Err.
Variable InplaceSort : nat -> nat.
Variable Length : nat -> nat.
Variable MarshalBinary : nat -> list nat + Err.

Lemma end_phase_shape (ctr : container) (input : list Received) :
  cl_ret (end_phase ctr input) = StopResult /\ cl_res (end_phase ctr input) = Ok tt /\
  batch (cl_ctr (end_phase ctr input)) = None /\
  state (cl_ctr (end_phase ctr input)) = state ctr /\
  isMerge (cl_ctr (end_phase ctr input)) = isMerge ctr /\
  cl_rest (end_phase ctr input) = input /\
  sends (cl_ev (end_phase ctr input)) = [] /\
  receives (cl_ev (end_phase ctr input)) = [] /\
  puts (cl_ev (end_phase ctr input)) =
    match batch ctr with Some b => [ib_id b] | None => [] end.
Proof. unfold end_phase. destruct (batch ctr) eqn:Hb; simpl; auto 10. Qed.

Lemma end_phase_idle (ctr : container) (input : list Received) :
  batch ctr = None -> end_phase ctr input = mkCallOut [] StopResult (Ok tt) ctr input.
Proof. intros Hb. unfold end_phase. by rewrite Hb. Qed.

Lemma Call_idle (ap : Argument) (ctr : container) (input : list Received) (cd : bool) :
  state ctr = End -> batch ctr = None ->
  Call AppendWithCopy InplaceSort Length MarshalBinary ap ctr None input cd =
  mkCallOut [] StopResult (Ok tt) ctr input.
Proof. intros Hs Hb. unfold Call. rewrite Hs. by apply end_phase_idle. Qed.

Lemma filter_phase_cases (ap : Argument) (ctr : container) (input : list Received)
    (cd : bool) :
  (exists f, filter_phase InplaceSort Length MarshalBinary ap ctr input cd =
     cl_prepend (sendFilter cd f) (end_phase (mkContainer End (batch ctr) (isMerge ctr)) input)) \/
  (exists r, r <> Ok tt /\
     filter_phase InplaceSort Length MarshalBinary ap ctr input cd =
     mkCallOut [] NewResult r ctr input).
Proof.
  unfold filter_phase.
  destruct (handleRuntimeFilter_ev InplaceSort Length MarshalBinary ap (batch ctr) cd) as [(f & Hh)|(Hf & Hn)].
  - left. exists f. by rewrite Hh.
  - right. destruct (handleRuntimeFilter _ _ _ ap (batch ctr) cd) as [ev [u|e|m]];
      simpl in Hf, Hn; subst.
    + destruct u; contradiction.
    + exists (Fail e). split; [discriminate|done].
    + exists (Panic m). split; [discriminate|done].
Qed.

(** A [Call] that returns nil: its result is the [ExecStop] result, the
    operator ends in state [End] with no batch left, its receive mode
    unchanged; it sent exactly one filter when it ran the filter phase and
    the [select] of [sendFilter] took the send case ([cd] false), none
    otherwise; and any later [Call] does nothing but return the [ExecStop]
    result again, or the cancel result with its error when the query has
    been canceled. *)
Theorem Call_stops (ap : Argument) (ctr : container) (input : list Received) (cd : bool)
    (out : CallOut) :
  Call AppendWithCopy InplaceSort Length MarshalBinary ap ctr None input cd = out ->
  cl_res out = Ok tt ->
  cl_ret out = StopResult /\ state (cl_ctr out) = End /\ batch (cl_ctr out) = None /\
  isMerge (cl_ctr out) = isMerge ctr /\
  length (sends (cl_ev out)) =
    match state ctr with End => 0 | _ => if cd then 0 else 1 end /\
  (forall cancel' input' cd',
     Call AppendWithCopy InplaceSort Length MarshalBinary ap (cl_ctr out) cancel' input' cd' =
     match cancel' with
     | Some e' => mkCallOut [] CancelResult (Fail e') (cl_ctr out) input'
     | None => mkCallOut [] StopResult (Ok tt) (cl_ctr out) input'
     end).
Proof.
  intros Hout Hok.
  assert (Hmain : cl_ret out = StopResult /\ state (cl_ctr out) = End /\
                  batch (cl_ctr out) = None /\ isMerge (cl_ctr out) = isMerge ctr /\
                  length (sends (cl_ev out)) =
                    match state ctr with End => 0 | _ => if cd then 0 else 1 end).
  { subst out. unfold Call in *.
    destruct (state ctr) eqn:Hst.
    - destruct (co_res (collectBuildBatches AppendWithCopy ap (isMerge ctr) input (batch ctr)))
        eqn:Hc; simpl in Hok; try discriminate.
      pose proof (proj1 (collect_effects AppendWithCopy ap (isMerge ctr) input (batch ctr))) as Hs.
      destruct (filter_phase_cases ap
        (mkContainer HandleRuntimeFilter
           (co_batch (collectBuildBatches AppendWithCopy ap (isMerge ctr) input (batch ctr)))
           (isMerge ctr))
        (co_rest (collectBuildBatches AppendWithCopy ap (isMerge ctr) input (batch ctr))) cd)
        as [(f & Hf)|(r & Hr & Hf)]; rewrite Hf in *; simpl in *.
      + destruct (end_phase_shape
          (mkContainer End
             (co_batch (collectBuildBatches AppendWithCopy ap (isMerge ctr) input (batch ctr)))
             (isMerge ctr))
          (co_rest (collectBuildBatches AppendWithCopy ap (isMerge ctr) input (batch ctr))))
          as (H1 & _ & H3 & H4 & H5 & _ & H7 & _).
        simpl in *. split; [done|]. split; [done|]. split; [done|]. split; [done|].
        unfold sends in *. rewrite !omap_app_ev, Hs, H7.
        fold (sends (sendFilter cd f)). rewrite sendFilter_sends. by destruct cd.
      + contradiction.
    - destruct (filter_phase_cases ap ctr input cd) as [(f & Hf)|(r & Hr & Hf)];
        rewrite Hf in *; simpl in *; [|contradiction].
      destruct (end_phase_shape (mkContainer End (batch ctr) (isMerge ctr)) input)
        as (H1 & _ & H3 & H4 & H5 & _ & H7 & _).
      simpl in *. split; [done|]. split; [done|]. split; [done|]. split; [done|].
      unfold sends in *. rewrite !omap_app_ev, H7.
      fold (sends (sendFilter cd f)). rewrite sendFilter_sends. by destruct cd.
    - destruct (end_phase_shape ctr input) as (H1 & _ & H3 & H4 & H5 & _ & H7 & _).
      rewrite Hst in H4. rewrite H7. auto. }
  destruct Hmain as (H1 & H2 & H3 & H4 & H5).
  do 5 (split; [assumption|]).
  intros [e'|] input' cd'; [reflexivity|]. by apply Call_idle.
Qed.

(** A [Call] that returns an error sends no filter. Either the query was
    canceled, and the [Call] did nothing else, or the error came from
    collecting the batches or from building the filter, and the operator
    stays in that phase, so that a later [Call] resumes there. *)
Theorem Call_error (ap : Argument) (ctr : container) (cancel : option Err)
    (input : list Received) (cd : bool) (out : CallOut) (e : Err) :
  Call AppendWithCopy InplaceSort Length MarshalBinary ap ctr cancel input cd = out ->
  cl_res out = Fail e ->
  sends (cl_ev out) = [] /\
  ((cancel = Some e /\ cl_ret out = CancelResult /\ cl_ev out = [] /\
    cl_ctr out = ctr /\ cl_rest out = input) \/
   (cancel = None /\ cl_ret out = NewResult /\ isMerge (cl_ctr out) = isMerge ctr /\
    ((state ctr = ReceiveBatch /\ state (cl_ctr out) = ReceiveBatch) \/
     (state ctr <> End /\ state (cl_ctr out) = HandleRuntimeFilter)))).
Proof.
  intros <- Herr. unfold Call in *.
  destruct cancel as [e'|].
  { simpl in *. inversion Herr; subst. split; [done|]. left. naive_solver. }
  destruct (state ctr) eqn:Hst.
  - destruct (co_res (collectBuildBatches AppendWithCopy ap (isMerge ctr) input (batch ctr)))
      eqn:Hc; simpl in *.
    + pose proof (proj1 (collect_effects AppendWithCopy ap (isMerge ctr) input (batch ctr))) as Hs.
      destruct (filter_phase_cases ap
        (mkContainer HandleRuntimeFilter
           (co_batch (collectBuildBatches AppendWithCopy ap (isMerge ctr) input (batch ctr)))
           (isMerge ctr))
        (co_rest (collectBuildBatches AppendWithCopy ap (isMerge ctr) input (batch ctr))) cd)
        as [(f & Hf)|(r & Hr & Hf)]; rewrite Hf in *; simpl in *.
      * exfalso. revert Herr.
        destruct (end_phase_shape
          (mkContainer End
             (co_batch (collectBuildBatches AppendWithCopy ap (isMerge ctr) input (batch ctr)))
             (isMerge ctr))
          (co_rest (collectBuildBatches AppendWithCopy ap (isMerge ctr) input (batch ctr))))
          as (_ & H2 & _). rewrite H2. discriminate.
      * subst r. split.
        { unfold sends in *. by rewrite app_nil_r. }
        right. split; [done|]. split; [done|]. split; [done|]. right. split; [done|done].
    + inversion Herr; subst.
      pose proof (proj1 (collect_effects AppendWithCopy ap (isMerge ctr) input (batch ctr))) as Hs.
      split; [exact Hs|]. right. naive_solver.
    + discriminate.
  - destruct (filter_phase_cases ap ctr input cd) as [(f & Hf)|(r & Hr & Hf)];
      rewrite Hf in *; simpl in *.
    + exfalso. revert Herr.
      destruct (end_phase_shape (mkContainer End (batch ctr) (isMerge ctr)) input)
        as (_ & H2 & _). rewrite H2. discriminate.
    + subst r. split; [done|]. right. split; [done|]. split; [done|]. split; [done|].
      right. rewrite Hst. split; [discriminate|done].
  - exfalso. destruct (end_phase_shape ctr input) as (_ & H2 & _). congruence.
Qed.

Lemma Call_receives (ap : Argument) (ctr : container) (cancel : option Err)
    (input : list Received) (cd : bool) :
  Forall (fun m => m = isMerge ctr)
    (receives (cl_ev (Call AppendWithCopy InplaceSort Length MarshalBinary ap ctr cancel input cd))).
Proof.
  unfold Call. destruct cancel; [simpl; constructor|].
  assert (Hend : forall c i, receives (cl_ev (end_phase c i)) = [])
    by (intros c i; apply end_phase_shape).
  assert (Hfil : forall c i, receives (cl_ev (filter_phase InplaceSort Length MarshalBinary ap c i cd)) = []).
  { intros c i. destruct (filter_phase_cases ap c i cd) as [(f & Hf)|(r & Hr & Hf)];
      rewrite Hf; simpl; [|done].
    unfold receives in *. rewrite omap_app_ev.
    fold (receives (sendFilter cd f)). rewrite sendFilter_receives. apply Hend. }
  destruct (state ctr).
  - pose proof (proj2 (collect_effects AppendWithCopy ap (isMerge ctr) input (batch ctr))) as Hr.
    destruct (co_res _); simpl; [|exact Hr|exact Hr].
    unfold receives in *. rewrite omap_app_ev. apply Forall_app; split; [exact Hr|].
    fold (receives (cl_ev (filter_phase InplaceSort Length MarshalBinary ap
      (mkContainer HandleRuntimeFilter
         (co_batch (collectBuildBatches AppendWithCopy ap (isMerge ctr) input (batch ctr)))
         (isMerge ctr))
      (co_rest (collectBuildBatches AppendWithCopy ap (isMerge ctr) input (batch ctr))) cd))).
    rewrite Hfil. constructor.
  - rewrite Hfil. constructor.
  - rewrite Hend. constructor.
Qed.

(** [Prepare] panics when the operator has no runtime-filter sender;
    otherwise it sets up the receiver once, in merge mode exactly when
    there are more than one merge receivers, and every receive of a later
    [Call] on that container uses the same mode. *)
Theorem Prepare_receive_mode (ap : Argument) (n : nat) :
  (RuntimeFilterSenders ap = [] ->
     Prepare ap n = ([], Panic "there must be runtime filter in index build!"%string)) /\
  (RuntimeFilterSenders ap <> [] ->
     Prepare ap n = ([EInitReceiver (1 <? n)], Ok (1 <? n))) /\
  (forall ev m ctr cancel input cd,
     Prepare ap n = (ev, Ok m) -> isMerge ctr = m ->
     Forall (fun x => x = (1 <? n))
       (receives (cl_ev (Call AppendWithCopy InplaceSort Length MarshalBinary
                           ap ctr cancel input cd)))).
Proof.
  unfold Prepare. split; [|split].
  - intros ->. done.
  - intros Hne. destruct (RuntimeFilterSenders ap); [done|].
    by destruct (1 <? n).
  - intros ev m ctr cancel input cd Hp Hm.
    assert (m = (1 <? n)) as ->.
    { destruct (RuntimeFilterSenders ap); [discriminate|].
      destruct (1 <? n); inversion Hp; done. }
    rewrite <- Hm. apply Call_receives.
Qed.
End CallProofs.

(** ** Witnesses of the further properties *)

Lemma NewMergeObjectsTask_layout_witness :
  t_mergedBlkCnt ex_mtask !! 1 = Some (prefixSum [ex_objA; ex_objB] 1) /\
  t_totalMergedBlkCnt ex_mtask = sum_list (map oe_BlockCnt [ex_objA; ex_objB]).
Proof.
  destruct (NewMergeObjectsTask_layout ex_okresp [ex_objA; ex_objB] []
    (fst (NewMergeObjectsTask ex_okresp [ex_objA; ex_objB] [])) ex_mtask eq_refl)
    as (_ & _ & _ & Hi & Ht & _).
  split; [apply Hi; simpl; lia|exact Ht].
Defined.

Lemma NewMergeObjectsTask_errors_witness :
  snd (NewMergeObjectsTask ex_resp_bad_object [ex_objA; ex_objB] []) = Ok (None, Some 8) /\
  exists k m, [ex_objA; ex_objB] !! k = Some m /\ oe_ID m = 11.
Proof.
  split; [reflexivity|].
  destruct (NewMergeObjectsTask_errors ex_resp_bad_object [ex_objA; ex_objB] []
    (fst (NewMergeObjectsTask ex_resp_bad_object [ex_objA; ex_objB] [])) None 8 eq_refl)
    as (f & r & _ & [(task & Ht & _)|(_ & k & m & Hk & _ & Hout & _)]); [discriminate|].
  exists k, m. split; [exact Hk|].
  destruct k as [|[|k]]; simpl in Hk; inversion Hk; subst; simpl in Hout;
    [discriminate|reflexivity].
Defined.

Lemma Execute_GetCreatedObjects_witness :
  GetCreatedObjects
    (ex_task (match snd (Execute ex_okresp ex_merge ex_mtask ex_schema []) with
              | Ok o => o | _ => mkExecOut None None ex_mtask end)) = [20].
Proof.
  destruct (Execute_GetCreatedObjects ex_okresp ex_merge ex_mtask ex_schema []
    (fst (Execute ex_okresp ex_merge ex_mtask ex_schema []))
    (match snd (Execute ex_okresp ex_merge ex_mtask ex_schema []) with
     | Ok o => o | _ => mkExecOut None None ex_mtask end) eq_refl) as [H _].
  destruct (H eq_refl) as (t' & en & Hd & Hc & _ & Hg).
  rewrite Hg. inversion Hd; subst. simpl in Hc. inversion Hc; subst. reflexivity.
Defined.

Lemma PrepareData_no_columns_panics_witness :
  snd (PrepareData ex_read ex_mtask ex_schema_rowid) = PDPanic "mismatch"%string \/
  snd (PrepareData ex_read ex_mtask ex_schema_rowid) = PDPanic "index out of range"%string.
Proof.
  apply PrepareData_no_columns_panics.
  - split; reflexivity.
  - reflexivity.
  - simpl; lia.
  - intros h b. eexists. reflexivity.
Defined.

Lemma PrepareData_no_blocks_witness :
  PrepareData ex_read ex_mtask_noblk ex_schema = ([], PDOk [] [] []).
Proof.
  apply PrepareData_no_blocks; [split; reflexivity|reflexivity].
Defined.

Section IndexBuildWitnesses.

Import IndexBuild IndexBuildExamples.

Lemma collectBuildBatches_pool_witness :
  puts (co_ev (collectBuildBatches ex_append ex_ap false ex_input None)) = [1; 2; 3] /\
  appends (co_ev (collectBuildBatches ex_append ex_ap false ex_input None)) = [1; 3].
Proof.
  destruct (collectBuildBatches_pool ex_append ex_ap false ex_input None _ eq_refl eq_refl)
    as (pre & Hin & Hp & Ha & _).
  simpl in Hin. rewrite app_nil_r in Hin. subst pre.
  rewrite Hp, Ha. split; reflexivity.
Defined.

Lemma collectBuildBatches_stop_witness :
  let co := collectBuildBatches ex_append ex_ap_small false ex_input None in
  (exists pre, ex_input = pre ++ RecvNil :: co_rest co /\ Forall is_batch pre) \/
  (co_rest co = [] /\ Forall is_batch ex_input) \/
  (exists b sp, co_batch co = Some b /\ sender0 ex_ap_small = Some sp /\
     (UpperLimit sp < Z.of_nat (ib_RowCount b))%Z).
Proof.
  exact (collectBuildBatches_stop ex_append ex_ap_small false ex_input None _ eq_refl eq_refl).
Defined.

Lemma collectBuildBatches_error_witness :
  let co := collectBuildBatches ex_append_bad ex_ap false ex_input None in
  exists pre, Forall is_batch pre /\
    puts (co_ev co) = map ib_id (received_batches pre) /\
    sends (co_ev co) = [] /\
    (ex_input = pre ++ RecvErr 5 :: co_rest co \/
     exists b acc, ex_input = pre ++ RecvBatch b :: co_rest co /\ ib_IsEmpty b = false /\
       ex_append_bad acc b = (co_batch co, Some 5)).
Proof.
  exact (collectBuildBatches_error ex_append_bad ex_ap false ex_input None _ 5 eq_refl eq_refl).
Defined.

Lemma handleRuntimeFilter_choice_witness :
  sends (fst (handleRuntimeFilter ex_sort ex_length ex_marshal ex_ap
                (Some (mkIBatch 100 5 false [5])) false)) =
    [mkRuntimeFilter RuntimeFilter_IN 5 [5]] /\
  exists f, fst (handleRuntimeFilter ex_sort ex_length ex_marshal ex_ap
                (Some (mkIBatch 100 5 false [5])) false) = sendFilter false f /\
    (Typ f = RuntimeFilter_IN -> Card f = int32_of (Z.of_nat (ex_length (ex_sort 5)))).
Proof.
  split; [reflexivity|].
  destruct (handleRuntimeFilter_choice ex_sort ex_length ex_marshal ex_ap
    (mkRuntimeFilterSpec (Some 1) 100) (Some (mkIBatch 100 5 false [5])) false
    (fst (handleRuntimeFilter ex_sort ex_length ex_marshal ex_ap
            (Some (mkIBatch 100 5 false [5])) false))
    (snd (handleRuntimeFilter ex_sort ex_length ex_marshal ex_ap
            (Some (mkIBatch 100 5 false [5])) false)) eq_refl eq_refl)
    as [Hok _].
  destruct (Hok eq_refl) as (f & Hev & _ & _ & Hin).
  exists f. split; [exact Hev|]. intros Ht.
  destruct (Hin Ht) as (_ & b & v & Hb & _ & _ & Hv & _ & Hc).
  inversion Hb; subst. simpl in Hv. inversion Hv; subst. exact Hc.
Defined.

Lemma Call_stops_witness :
  length (sends (cl_ev (Call ex_append ex_sort ex_length ex_marshal ex_ap ex_ctr0 None
                          ex_input false))) = 1.
Proof.
  destruct (Call_stops ex_append ex_sort ex_length ex_marshal ex_ap ex_ctr0 ex_input false
    _ eq_refl eq_refl) as (_ & _ & _ & _ & Hl & _).
  exact Hl.
Defined.

Lemma Call_error_witness :
  let out := Call ex_append_bad ex_sort ex_length ex_marshal ex_ap ex_ctr0 None ex_input false in
  sends (cl_ev out) = [] /\ state (cl_ctr out) = ReceiveBatch.
Proof.
  cbv zeta.
  destruct (Call_error ex_append_bad ex_sort ex_length ex_marshal ex_ap ex_ctr0 None ex_input
    false _ 5 eq_refl eq_refl) as (Hs & [(Hc & _)|(_ & _ & _ & [(_ & Hst)|(_ & Hst)])]).
  - discriminate.
  - split; [exact Hs|exact Hst].
  - discriminate.
Defined.

End IndexBuildWitnesses.
